(** * Gas price incrementor of MysteriumNetwork/payments (package transfer)

    A shallow embedding of [transfer/incrementor.go]: the signer registry,
    the admission checks, the per-transaction watcher with its gas-price
    increase and status check, and the poll loop.  The go-ethereum and Go
    standard-library values the code manipulates (errors, addresses,
    big.Float, transactions, receipts) are modelled first, each in a module
    named after its Go package. *)

From Stdlib Require Import ZArith NArith Lia List String Ascii Bool.
From Stdlib.Strings Require Import Byte.
From stdpp Require Import base option gmap strings list vector pretty.

Local Open Scope string_scope.
Local Open Scope Z_scope.

(* ===================================================================== *)
(** ** Go errors *)
(* ===================================================================== *)

(** The three sentinel error values the incrementor tests for.  They are
    package-level variables built once with [errors.New]; [errors.Is] finds
    them by identity. *)
Inductive sentinel : Type :=
  | SentNonceTooHigh   (* core.ErrNonceTooHigh *)
  | SentNonceTooLow    (* core.ErrNonceTooLow *)
  | SentNotFound.      (* ethereum.NotFound *)

(** An error value: a sentinel, any other leaf error (identified by nothing
    but its text: it is never the same value as a sentinel), or the wrapper
    that [fmt.Errorf] builds for a format ending in [%w]. *)
Inductive error : Type :=
  | Sentinel (s : sentinel)
  | Leaf (msg : string)
  | Wrapf (prefix : string) (inner : error).

#[global] Instance sentinel_eq_dec : EqDecision sentinel.
Proof. solve_decision. Defined.

Module core.
Definition ErrNonceTooHigh : error := Sentinel SentNonceTooHigh.
Definition ErrNonceTooLow : error := Sentinel SentNonceTooLow.
End core.

Module ethereum.
Definition NotFound : error := Sentinel SentNotFound.
End ethereum.

Module errors.

Definition sentinel_text (s : sentinel) : string :=
  match s with
  | SentNonceTooHigh => "nonce too high"
  | SentNonceTooLow => "nonce too low"
  | SentNotFound => "not found"
  end.

(** [err.Error()] *)
Fixpoint Error (err : error) : string :=
  match err with
  | Sentinel s => sentinel_text s
  | Leaf msg => msg
  | Wrapf prefix inner => prefix +:+ Error inner
  end.

(** [errors.New(msg)]: a fresh leaf. *)
Definition New (msg : string) : error := Leaf msg.

(** [fmt.Errorf(prefix + "%w", inner)] *)
Definition Errorf (prefix : string) (inner : error) : error := Wrapf prefix inner.

(** [errors.Unwrap(err)]: [None] is Go's nil. *)
Definition Unwrap (err : error) : option error :=
  match err with
  | Wrapf _ inner => Some inner
  | _ => None
  end.

(** [err == target] for a sentinel target: identity of the value. *)
Definition same (err : error) (target : sentinel) : bool :=
  match err with
  | Sentinel s => bool_decide (s = target)
  | _ => false
  end.

(** [errors.Is(err, target)]: walks the chain of [Unwrap]. *)
Fixpoint Is (err : error) (target : sentinel) : bool :=
  same err target ||
  match err with
  | Wrapf _ inner => Is inner target
  | _ => false
  end.

End errors.

(** The result of a call that returns a pointer and an error. *)
Inductive result (A : Type) : Type :=
  | Ok (a : A)
  | Err (err : error).
Arguments Ok {A} a.
Arguments Err {A} err.

(* ===================================================================== *)
(** ** common.Address and its hexadecimal form *)
(* ===================================================================== *)

#[global] Instance byte_eq_dec : EqDecision byte := Byte.byte_eq_dec.
#[global] Instance byte_countable : Countable byte :=
  inj_countable Byte.to_N Byte.of_N Byte.of_to_N.

Module common.

Definition AddressLength : nat := 20.

(** [type Address [AddressLength]byte] *)
Record Address : Type := mkAddress { addressBytes : vec byte AddressLength }.

Definition byte_of_N (n : N) : byte := default "000"%byte (Byte.of_N n).

(** The zero value of [Address]. *)
Definition zeroAddress : Address := mkAddress (vreplicate AddressLength "000"%byte).

(** The first [n] elements of [l] as a vector, padded with [d]. *)
Fixpoint fixed {A} (d : A) (n : nat) (l : list A) : vec A n :=
  match n with
  | O => [#]
  | S n' =>
      match l with
      | [] => d ::: fixed d n' []
      | x :: l' => x ::: fixed d n' l'
      end
  end.

Definition Bytes (a : Address) : list byte := vec_to_list (addressBytes a).

Definition ofBytes (b : list byte) : Address := mkAddress (fixed "000"%byte AddressLength b).

#[global] Instance Address_eq_dec : EqDecision Address.
Proof. solve_decision. Defined.

(** Addresses are map keys: they are counted through their bytes. *)
#[global] Instance Address_countable : Countable Address.
Proof.
  refine (inj_countable' Bytes ofBytes _).
  assert (H : forall n (v : vec byte n), fixed "000"%byte n (vec_to_list v) = v).
  { intros n v. induction v as [|x n v IH]; simpl; [reflexivity|]. f_equal. exact IH. }
  intros [v]. unfold Bytes, ofBytes. cbn [addressBytes]. f_equal. apply H.
Defined.

(** [fromHexChar] of encoding/hex. *)
Definition fromHexChar (c : ascii) : option N :=
  let n := N_of_ascii c in
  if ((48 <=? n) && (n <=? 57))%N then Some (n - 48)%N
  else if ((97 <=? n) && (n <=? 102))%N then Some (n - 97 + 10)%N
  else if ((65 <=? n) && (n <=? 70))%N then Some (n - 65 + 10)%N
  else None.

(** [Hex2Bytes]: [hex.DecodeString] with its error dropped, which leaves
    the bytes decoded before the first invalid character. *)
Fixpoint Hex2Bytes (s : string) : list byte :=
  match s with
  | String a (String b rest) =>
      match fromHexChar a, fromHexChar b with
      | Some hi, Some lo => byte_of_N (hi * 16 + lo) :: Hex2Bytes rest
      | _, _ => []
      end
  | _ => []
  end.

Definition has0xPrefix (s : string) : bool :=
  match s with
  | String c0 (String c1 _) =>
      Ascii.eqb c0 "0" && (Ascii.eqb c1 "x" || Ascii.eqb c1 "X")
  | _ => false
  end.

Definition FromHex (s : string) : list byte :=
  let s := if has0xPrefix s then String.substring 2 (String.length s - 2) s else s in
  let s := if Nat.odd (String.length s) then String "0" s else s in
  Hex2Bytes s.

(** [BytesToAddress] / [SetBytes]: a longer slice is cropped from the
    left, a shorter one is right-aligned over zeroes. *)
Definition BytesToAddress (b : list byte) : Address :=
  let b := drop (length b - AddressLength) b in
  ofBytes (replicate (AddressLength - length b) "000"%byte ++ b).

Definition HexToAddress (s : string) : Address := BytesToAddress (FromHex s).

Definition hexDigit (n : N) : ascii :=
  default "0"%char (String.get (N.to_nat n) "0123456789abcdef").

(** [hex.EncodeToString]: two digits per byte, high nibble first. *)
Fixpoint hexEncode (b : list byte) : string :=
  match b with
  | [] => ""
  | x :: b' =>
      let n := Byte.to_N x in
      String (hexDigit (N.shiftr n 4)) (String (hexDigit (N.land n 15)) (hexEncode b'))
  end.

(** [Address.Hex]: "0x" and forty digits.  The capitalisation that the
    EIP-55 checksum gives the letters is left out: [HexToAddress] reads
    both cases alike, and the only string the incrementor compares a
    rendering with is that of the zero address, which has no letter. *)
Definition Hex (a : Address) : string := "0x" +:+ hexEncode (Bytes a).

End common.

(* ===================================================================== *)
(** ** float64 and math/big *)
(* ===================================================================== *)

(** A [float64]: a finite value is the dyadic rational [m * 2^e] (an IEEE
    double has [|m| < 2^53]), or an infinity, or NaN. *)
Inductive float64 : Type :=
  | Finite (m e : Z)
  | Infinite (neg : bool)
  | NaN.

(** [x > 1] on float64, as Go compares: false on NaN. *)
Definition float64_gt_one (x : float64) : bool :=
  match x with
  | Finite m e => if 0 <=? e then 1 <? m * 2 ^ e else 2 ^ (- e) <? m
  | Infinite neg => negb neg
  | NaN => false
  end.

Module big.

(** [BitLen] of a [big.Int]: the length of the absolute value in bits. *)
Definition BitLen (x : Z) : Z :=
  if Z.abs x =? 0 then 0 else Z.log2 (Z.abs x) + 1.

(** A [big.Float] with its precision: the finite value [mant * 2^exp]
    ([mant] carries the sign), or an infinity. *)
Inductive Float : Type :=
  | Fin (prec : Z) (mant exp : Z)
  | Inf (prec : Z) (neg : bool).

Definition Prec (x : Float) : Z :=
  match x with Fin p _ _ => p | Inf p _ => p end.

(** [big.NewFloat(x)]: precision 53, exact; panics (here [None]) on NaN. *)
Definition NewFloat (x : float64) : option Float :=
  match x with
  | Finite m e => Some (Fin 53 m e)
  | Infinite neg => Some (Inf 53 neg)
  | NaN => None
  end.

(** [new(big.Float).SetInt(x)]: the receiver's precision is 0, so it
    becomes the larger of [x.BitLen()] and 64 and nothing is rounded. *)
Definition SetInt (x : Z) : Float := Fin (Z.max (BitLen x) 64) x 0.

(** Rounding of [mant * 2^exp] to [prec] bits of mantissa, to nearest,
    ties to even (the rounding mode of a zero [big.Float]). *)
Definition round (prec mant exp : Z) : Float :=
  let a := Z.abs mant in
  let bl := BitLen a in
  if bl <=? prec then Fin prec mant exp
  else
    let sh := bl - prec in
    let q := Z.shiftr a sh in
    let r := a - Z.shiftl q sh in
    let half := Z.shiftl 1 (sh - 1) in
    let q' := if (half <? r) || ((r =? half) && Z.odd q) then q + 1 else q in
    Fin prec (Z.sgn mant * q') (exp + sh).

(** [new(big.Float).Mul(x, y)]: the receiver takes the larger of the two
    precisions; the product of zero and an infinity panics ([None]). *)
Definition Mul (x y : Float) : option Float :=
  let prec := Z.max (Prec x) (Prec y) in
  match x, y with
  | Fin _ mx ex, Fin _ my ey => Some (round prec (mx * my) (ex + ey))
  | Fin _ m _, Inf _ neg | Inf _ neg, Fin _ m _ =>
      if m =? 0 then None else Some (Inf prec (xorb neg (m <? 0)))
  | Inf _ n1, Inf _ n2 => Some (Inf prec (xorb n1 n2))
  end.

(** [x.Int(nil)]: truncation towards zero; nil ([None]) for an infinity. *)
Definition Int (x : Float) : option Z :=
  match x with
  | Fin _ m e => Some (if 0 <=? e then m * 2 ^ e else Z.quot m (2 ^ (- e)))
  | Inf _ _ => None
  end.

End big.

(* ===================================================================== *)
(** ** core/types: transactions and receipts *)
(* ===================================================================== *)

Module types.

(** A [types.Transaction]: the chain it is meant for, its payload, and its
    signature values, all zero on a transaction that has not been signed. *)
Record Transaction : Type := mkTransaction {
  ChainId : Z;
  Nonce : N;
  GasPrice : Z;
  Gas : N;
  To : option common.Address;
  Value : Z;
  Data : list byte;
  V : Z; R : Z; S : Z
}.

(** [types.NewTransaction]: an unsigned transaction. *)
Definition NewTransaction (chain : Z) (nonce : N) (to : option common.Address)
    (amount : Z) (gasLimit : N) (gasPrice : Z) (data : list byte) : Transaction :=
  mkTransaction chain nonce gasPrice gasLimit to amount data 0 0 0.

(** [common.Hash] of a transaction.  The digest is kept symbolic: a hash
    stands for the transaction it was computed from. *)
Inductive Hash : Type := HashOf (tx : Transaction).

Definition TxHash (tx : Transaction) : Hash := HashOf tx.

(** The bytes [MarshalJSON] produces and [UnmarshalJSON] reads, kept
    symbolic: an encoding of a transaction decodes to that transaction,
    every other byte string (the empty one among them) decodes to an
    error. *)
Inductive JSON : Type :=
  | Encoded (tx : Transaction)
  | Malformed (raw : list byte).

Definition MarshalJSON (tx : Transaction) : result JSON := Ok (Encoded tx).

Definition UnmarshalJSON (blob : JSON) : result Transaction :=
  match blob with
  | Encoded tx => Ok tx
  | Malformed _ => Err (errors.New "invalid transaction JSON")
  end.

Definition ReceiptStatusFailed : N := 0.
Definition ReceiptStatusSuccessful : N := 1.

(** The one field of [types.Receipt] the incrementor reads. *)
Record Receipt : Type := mkReceipt { Status : N }.

End types.

(* ===================================================================== *)
(** ** package transfer: the persisted record *)
(* ===================================================================== *)

(** [TransactionState].  The incrementor names three of its values; the
    state a record is created in is the spec's [Pending]; a state read back
    from storage may be any other string (the zero value is the empty
    one). *)
Inductive TransactionState : Type :=
  | TxStatePending
  | TxStatePriceIncreased
  | TxStateFailed
  | TxStateSucceed
  | TxStateOther (raw : string).

(** [TransactionOpts]; durations are in nanoseconds, [MaxPrice] is a
    [*big.Int] and may be nil ([None]). *)
Record TransactionOpts : Type := mkOpts {
  Timeout : Z;
  CheckInterval : Z;
  IncreaseInterval : Z;
  PriceMultiplier : float64;
  MaxPrice : option Z
}.

(** [Transaction]: the unit of work, as stored. *)
Record Transaction : Type := mkTx {
  UniqueID : string;
  ChainID : Z;
  SenderAddressHex : string;
  State : TransactionState;
  Opts : TransactionOpts;
  LatestTx : types.JSON
}.

(** The zero values [TransactionOpts{}] and [Transaction{}]. *)
Definition zeroOpts : TransactionOpts := mkOpts 0 0 0 (Finite 0 0) None.
Definition zeroTransaction : Transaction :=
  mkTx "" 0 "" (TxStateOther "") zeroOpts (types.Malformed []).

(** [tx.State = s] on a copy of [tx]. *)
Definition withState (tx : Transaction) (s : TransactionState) : Transaction :=
  mkTx (UniqueID tx) (ChainID tx) (SenderAddressHex tx) s (Opts tx) (LatestTx tx).

(** [tx.LatestTx = blob] on a copy of [tx]. *)
Definition withLatestTx (tx : Transaction) (blob : types.JSON) : Transaction :=
  mkTx (UniqueID tx) (ChainID tx) (SenderAddressHex tx) (State tx) (Opts tx) blob.

(** Modelled from the spec: [TransactionOpts.validate] is not in src/.  The
    spec asks for sane positive intervals, a multiplier greater than one and
    a non-nil maximum price; [None] is a nil error. *)
Definition validate (o : TransactionOpts) : option error :=
  if negb (0 <? Timeout o) then Some (errors.New "timeout must be positive")
  else if negb (0 <? CheckInterval o) then Some (errors.New "check interval must be positive")
  else if negb (0 <? IncreaseInterval o) then Some (errors.New "increase interval must be positive")
  else if negb (float64_gt_one (PriceMultiplier o)) then Some (errors.New "price multiplier must be greater than 1")
  else match MaxPrice o with
       | None => Some (errors.New "max price must be set")
       | Some _ => None
       end.

(** Modelled from the spec: [Transaction.getLatestTx] is not in src/.  It
    decodes the stored [LatestTx]. *)
Definition getLatestTx (tx : Transaction) : result types.Transaction :=
  types.UnmarshalJSON (LatestTx tx).

(** Modelled from the spec: [Transaction.rebuiledWithNewGasPrice] is not in
    src/.  It rebuilds an unsigned transaction with the same chain,
    recipient, value, nonce, gas limit and payload, and the new gas price. *)
Definition rebuiledWithNewGasPrice (tx : Transaction) (org : types.Transaction)
    (newGasPrice : Z) : types.Transaction :=
  types.NewTransaction (types.ChainId org) (types.Nonce org) (types.To org)
    (types.Value org) (types.Gas org) newGasPrice (types.Data org).

(* ===================================================================== *)
(** ** The incrementor and the world it runs in *)
(* ===================================================================== *)

(** Every call that leaves the incrementor (storage, chain client, wall
    clock) is numbered; what the outside answers may depend on that
    number. *)
Definition instant : Type := nat.

(** [type Storage interface] *)
Record Storage : Type := mkStorage {
  UpsertIncrementorTransaction : instant -> Transaction -> option error;
  GetIncrementorTransactionsToCheck : instant -> list string -> list Transaction * option error;
  GetIncrementorSenderQueue : instant -> string -> Z * option error
}.

(** [type MultichainClient interface]; of [TransactionByHash] only the
    pending flag and the error are read. *)
Record MultichainClient : Type := mkClient {
  TransactionReceipt : instant -> Z -> types.Hash -> result types.Receipt;
  SendTransaction : instant -> Z -> types.Transaction -> option error;
  TransactionByHash : instant -> Z -> types.Hash -> bool * option error
}.

(** [type SignatureFunc func(tx, chainID) (tx, error)].  The instant of the
    call comes first: a signer may answer differently from call to call. *)
Definition SignatureFunc : Type :=
  instant -> types.Transaction -> Z -> result types.Transaction.

(** [type Signers map[common.Address]SignatureFunc] *)
Abbreviation Signers := (gmap common.Address SignatureFunc).

(** [type GasIncrementorConfig struct] *)
Record GasIncrementorConfig : Type := mkConfig {
  PullInterval : Z;
  MaxQueuePerSigner : Z
}.

(** What the code reads from outside its own struct through helpers that
    are not in src/: the wall clock behind [Transaction.isExpired], and the
    source of identifiers behind [newTransaction]. *)
Record Ambient : Type := mkAmbient {
  expiredAt : instant -> Transaction -> bool;
  uniqueIDAt : instant -> types.Transaction -> string
}.

(** [type GasPriceIncremenetor struct].  [logFn] is attached or nil; the
    watch set of the syncer and the stop channel are state of the world
    below. *)
Record GasPriceIncremenetor : Type := mkIncrementor {
  storage : Storage;
  bc : MultichainClient;
  cfg : GasIncrementorConfig;
  signers : Signers;
  logFn : bool;
  ambient : Ambient
}.

(** The state the incrementor acts on: the clock of outside calls, what the
    storage holds (a record per [UniqueID], replaced by each upsert the
    storage accepted), every upsert issued (newest first, accepted or not),
    every transaction handed to the chain for broadcast, every call of the
    log function, the syncer's set of watched identifiers, and the watchers
    started (the goroutines of [tryWatch]). *)
Record World : Type := mkWorld {
  now : instant;
  stored : gmap string Transaction;
  upserts : list Transaction;
  broadcasts : list (Z * types.Transaction);
  logged : list (Transaction * error);
  watched : gset string;
  started : list Transaction
}.

Definition emptyWorld : World := mkWorld 0%nat ∅ [] [] [] ∅ [].

(** A Go computation: it ends with a value or panics, and leaves a world. *)
Inductive outcome (A : Type) : Type :=
  | Value (a : A)
  | Panicked.
Arguments Value {A} a.
Arguments Panicked {A}.

Definition Go (A : Type) : Type := World -> outcome A * World.

Definition ret {A} (a : A) : Go A := fun w => (Value a, w).

Definition bind {A B} (c : Go A) (k : A -> Go B) : Go B :=
  fun w =>
    match c w with
    | (Value a, w') => k a w'
    | (Panicked, w') => (Panicked, w')
    end.

Definition panic {A} : Go A := fun w => (Panicked, w).

Notation "'let*' x ':=' c 'in' k" := (bind c (fun x => k))
  (at level 10, x pattern, c at level 100, k at level 200).

(** *** Calls that leave the incrementor *)

Definition advance (w : World) : World :=
  mkWorld (S (now w)) (stored w) (upserts w) (broadcasts w) (logged w) (watched w) (started w).

(** [i.storage.UpsertIncrementorTransaction(tx)]: the write is issued; the
    stored record is replaced when the storage reports no error. *)
Definition storageUpsert (i : GasPriceIncremenetor) (tx : Transaction) : Go (option error) :=
  fun w =>
    let err := UpsertIncrementorTransaction (storage i) (now w) tx in
    let kept := match err with
                | None => <[UniqueID tx := tx]> (stored w)
                | Some _ => stored w
                end in
    (Value err,
     mkWorld (S (now w)) kept (tx :: upserts w) (broadcasts w) (logged w) (watched w) (started w)).

Definition storageToCheck (i : GasPriceIncremenetor) (possibleSigners : list string)
    : Go (list Transaction * option error) :=
  fun w => (Value (GetIncrementorTransactionsToCheck (storage i) (now w) possibleSigners), advance w).

Definition storageSenderQueue (i : GasPriceIncremenetor) (sender : string) : Go (Z * option error) :=
  fun w => (Value (GetIncrementorSenderQueue (storage i) (now w) sender), advance w).

Definition bcTransactionByHash (i : GasPriceIncremenetor) (chainID : Z) (hash : types.Hash)
    : Go (bool * option error) :=
  fun w => (Value (TransactionByHash (bc i) (now w) chainID hash), advance w).

Definition bcTransactionReceipt (i : GasPriceIncremenetor) (chainID : Z) (hash : types.Hash)
    : Go (result types.Receipt) :=
  fun w => (Value (TransactionReceipt (bc i) (now w) chainID hash), advance w).

Definition bcSendTransaction (i : GasPriceIncremenetor) (chainID : Z) (tx : types.Transaction)
    : Go (option error) :=
  fun w =>
    (Value (SendTransaction (bc i) (now w) chainID tx),
     mkWorld (S (now w)) (stored w) (upserts w) ((chainID, tx) :: broadcasts w) (logged w)
       (watched w) (started w)).

(** [signer(tx, chainID)] *)
Definition callSigner (signer : SignatureFunc) (tx : types.Transaction) (chainID : Z)
    : Go (result types.Transaction) :=
  fun w => (Value (signer (now w) tx chainID), advance w).

(** Modelled from the spec: [Transaction.isExpired] is not in src/.  It
    tells whether the transaction's [Timeout] has elapsed; the reading of
    the wall clock is the world's. *)
Definition isExpired (i : GasPriceIncremenetor) (tx : Transaction) : Go bool :=
  fun w => (Value (expiredAt (ambient i) (now w) tx), advance w).

(** [i.log(tx, err)]: calls the log function when one is attached. *)
Definition log (i : GasPriceIncremenetor) (tx : Transaction) (err : error) : Go unit :=
  fun w =>
    if logFn i
    then (Value tt,
          mkWorld (now w) (stored w) (upserts w) (broadcasts w) ((tx, err) :: logged w)
            (watched w) (started w))
    else (Value tt, w).

(** *** syncer *)

Definition txMarkBeingWatched (tx : Transaction) : Go unit :=
  fun w =>
    (Value tt,
     mkWorld (now w) (stored w) (upserts w) (broadcasts w) (logged w)
       ({[UniqueID tx]} ∪ watched w) (started w)).

Definition txBeingWatched (tx : Transaction) : Go bool :=
  fun w => (Value (bool_decide (UniqueID tx ∈ watched w)), w).

Definition txRemoveWatched (tx : Transaction) : Go unit :=
  fun w =>
    (Value tt,
     mkWorld (now w) (stored w) (upserts w) (broadcasts w) (logged w)
       (watched w ∖ {[UniqueID tx]}) (started w)).

(** [go func() { ... }()] of [tryWatch]: a watcher is started for [tx]. *)
Definition goWatcher (tx : Transaction) : Go unit :=
  fun w =>
    (Value tt,
     mkWorld (now w) (stored w) (upserts w) (broadcasts w) (logged w) (watched w)
       (tx :: started w)).

(** *** safeSigners *)

Definition getSignerFunc (s : Signers) (senderAddressHex : string)
    : option SignatureFunc * bool :=
  let lookup := (s !! common.HexToAddress senderAddressHex,
                 bool_decide (is_Some (s !! common.HexToAddress senderAddressHex))) in
  if (size s =? 1)%nat &&
     (String.eqb senderAddressHex "" ||
      String.eqb senderAddressHex (common.Hex (common.HexToAddress "")))
  then match map_to_list s with
       | (_, v) :: _ => (Some v, true)
       | [] => lookup
       end
  else lookup.

Definition getSigners (s : Signers) : list string :=
  (fun kv => common.Hex (fst kv)) <$> map_to_list s.

(** *** The public checks *)

Definition CanSign (i : GasPriceIncremenetor) (sender : common.Address) : bool :=
  snd (getSignerFunc (signers i) (common.Hex sender)).

Definition CanQueue (i : GasPriceIncremenetor) (sender : common.Address) : Go (bool * option error) :=
  let* (length, err) := storageSenderQueue i (common.Hex sender) in
  match err with
  | Some e => ret (false, Some e)
  | None => ret (length <? MaxQueuePerSigner (cfg i), None)
  end.

(** *** Persisting a state *)

Definition transactionFailed (i : GasPriceIncremenetor) (tx : Transaction) : Go (option error) :=
  let tx := withState tx TxStateFailed in
  let* err := storageUpsert i tx in
  match err with
  | Some e => ret (Some (errors.Errorf "failed marking transaction as failed: " e))
  | None => ret None
  end.

Definition transactionSuccess (i : GasPriceIncremenetor) (tx : Transaction) : Go (option error) :=
  let tx := withState tx TxStateSucceed in
  let* err := storageUpsert i tx in
  match err with
  | Some e => ret (Some (errors.Errorf "failed marking transaction succeed: " e))
  | None => ret None
  end.

Definition transactionPriceIncreased (i : GasPriceIncremenetor) (tx : Transaction)
    (newTx : types.Transaction) : Go (Transaction * option error) :=
  let tx := withState tx TxStatePriceIncreased in
  match types.MarshalJSON newTx with
  | Err e =>
      ret (zeroTransaction,
           Some (errors.Errorf "failed to marshal internal transaction object: " e))
  | Ok blob =>
      let tx := withLatestTx tx blob in
      let* err := storageUpsert i tx in
      match err with
      | Some e =>
          ret (zeroTransaction,
               Some (errors.Errorf "failed to update transaction after price increase: " e))
      | None => ret (tx, None)
      end
  end.

(** Modelled from the spec: [newTransaction] is not in src/.  It builds the
    record [InsertInitial] stores: state [Pending], the encoding of the
    given transaction as [LatestTx], the sender's address in hex, the given
    opts and the transaction's chain.  Where the identifier comes from is
    not specified; it is read from the world. *)
Definition newTransaction (i : GasPriceIncremenetor) (tx : types.Transaction)
    (senderAddress : common.Address) (opts : TransactionOpts) : Go (result Transaction) :=
  fun w =>
    match types.MarshalJSON tx with
    | Err err => (Value (Err err), w)
    | Ok blob =>
        (Value (Ok (mkTx (uniqueIDAt (ambient i) (now w) tx) (types.ChainId tx)
                      (common.Hex senderAddress) TxStatePending opts blob)),
         advance w)
    end.

(** [InsertInitial] *)
Definition InsertInitial (i : GasPriceIncremenetor) (tx : types.Transaction)
    (opts : TransactionOpts) (senderAddress : common.Address) : Go (option error) :=
  match validate opts with
  | Some err => ret (Some (errors.Errorf "invalid opts given: " err))
  | None =>
      let* r := newTransaction i tx senderAddress opts in
      match r with
      | Err err => ret (Some (errors.Errorf "failed to create new transaction: " err))
      | Ok newTx => storageUpsert i newTx
      end
  end.

(** *** Error classification *)

Definition isBlockchainErrorUnhandleable (err : error) : bool :=
  if errors.Is err SentNonceTooHigh || errors.Is err SentNonceTooLow
     || errors.Is err SentNotFound
  then true
  else
    match errors.Unwrap err with
    | None => false
    | Some unwrapped =>
        if String.eqb (errors.Error unwrapped) (errors.Error core.ErrNonceTooLow)
           || String.eqb (errors.Error unwrapped) (errors.Error core.ErrNonceTooHigh)
        then true
        else false
    end.

(** *** Status check *)

(** [type BCTxStatus string] with its three constants. *)
Inductive BCTxStatus : Type :=
  | StatusPending
  | StatusFailed
  | StatusSucceeded.

(** The digits of a transaction hash are not modelled; the log text of an
    unknown receipt status names the status and the identifier. *)
Definition bcTxStatusFromReceipt (i : GasPriceIncremenetor) (tx : Transaction)
    (rcp : types.Receipt) : Go BCTxStatus :=
  if (types.Status rcp =? types.ReceiptStatusSuccessful)%N then ret StatusSucceeded
  else if (types.Status rcp =? types.ReceiptStatusFailed)%N then ret StatusFailed
  else
    let* _ := log i tx
      (errors.New ("received unknown receipt status " +:+ pretty (types.Status rcp)
                   +:+ " for tx uniqueID: '" +:+ UniqueID tx +:+ "'")) in
    ret StatusFailed.

Definition getTxStatus (i : GasPriceIncremenetor) (tx : Transaction)
    : Go (BCTxStatus * option error) :=
  match getLatestTx tx with
  | Err err =>
      ret (StatusFailed,
           Some (errors.Errorf "can't get tx status, malformed internal tx object: " err))
  | Ok org =>
      let hash := types.TxHash org in
      let* (pending, err) := bcTransactionByHash i (ChainID tx) hash in
      match err with
      | Some e => ret (StatusFailed, Some (errors.Errorf "failed to get transaction by hash: " e))
      | None =>
          if pending : bool then ret (StatusPending, None)
          else
            let* r := bcTransactionReceipt i (ChainID tx) hash in
            match r with
            | Err e =>
                ret (StatusFailed, Some (errors.Errorf "failed to get transaction receipt: " e))
            | Ok receipt =>
                let* status := bcTxStatusFromReceipt i tx receipt in
                ret (status, None)
            end
      end
  end.

(** *** Gas increase *)

Definition signAndSend (i : GasPriceIncremenetor) (tx : types.Transaction) (chainID : Z)
    (senderAddrHex : string) : Go (result types.Transaction) :=
  match getSignerFunc (signers i) senderAddrHex with
  | (Some signer, true) =>
      let* r := callSigner signer tx chainID in
      match r with
      | Err e => ret (Err (errors.Errorf "failed to sign a transaction: " e))
      | Ok signedTx =>
          let* err := bcSendTransaction i chainID signedTx in
          match err with
          | Some e => ret (Err (errors.Errorf "failed send a transaction: " e))
          | None => ret (Ok signedTx)
          end
      end
  | _ => ret (Err (errors.New ("can't retry, no signer for address: " +:+ senderAddrHex)))
  end.

(** The new gas price: the [big.Float] product of the multiplier and the
    current price, then [Int].  [None] where the Go expression panics or
    yields a nil [*big.Int] (whose [Cmp] panics). *)
Definition newGasPriceOf (multiplier : float64) (gasPrice : Z) : option Z :=
  match big.NewFloat multiplier with
  | None => None
  | Some m =>
      match big.Mul m (big.SetInt gasPrice) with
      | None => None
      | Some product => big.Int product
      end
  end.

Definition gasPriceLimitError (tx : Transaction) (maxPrice : Z) : error :=
  errors.New ("transaction with uniqueID '" +:+ UniqueID tx
              +:+ "' failed, gas price limit of " +:+ pretty maxPrice
              +:+ " reached on chain " +:+ pretty (ChainID tx)).

Definition increaseGasPrice (i : GasPriceIncremenetor) (tx : Transaction)
    : Go (Transaction * option error) :=
  match getLatestTx tx with
  | Err err => ret (zeroTransaction, Some err)
  | Ok org =>
      match newGasPriceOf (PriceMultiplier (Opts tx)) (types.GasPrice org), MaxPrice (Opts tx) with
      | Some newGasPrice, Some maxPrice =>
          if maxPrice <? newGasPrice
          then
            let* err := transactionFailed i tx in
            match err with
            | Some e => ret (zeroTransaction, Some e)
            | None => ret (zeroTransaction, Some (gasPriceLimitError tx maxPrice))
            end
          else
            let* r := signAndSend i (rebuiledWithNewGasPrice tx org newGasPrice)
                        (ChainID tx) (SenderAddressHex tx) in
            match r with
            | Err _ =>
                let* err := transactionFailed i tx in
                ret (zeroTransaction, err)
            | Ok newTx => transactionPriceIncreased i tx newTx
            end
      | _, _ => panic
      end
  end.

(** *** The watcher *)

(** The case a [select] of [watchAndIncrement] takes. *)
Inductive selected : Type :=
  | CaseStop        (* <-i.stop *)
  | CaseCheck       (* <-checkTimer.C *)
  | CaseIncrease    (* <-incTimer.C *)
  | CaseTimeout.    (* <-timeout *)

(** One turn of the loop either goes round again with the transaction it
    holds, or returns. *)
Inductive turn : Type :=
  | Continue (tx : Transaction)
  | Return (err : option error).

(** The body of the [for { select { ... } }] of [watchAndIncrement]. *)
Definition watchTurn (i : GasPriceIncremenetor) (tx : Transaction) (c : selected) : Go turn :=
  match c with
  | CaseStop => ret (Return None)
  | CaseCheck =>
      let* (status, err) := getTxStatus i tx in
      match err with
      | Some e =>
          if negb (isBlockchainErrorUnhandleable e) then ret (Return (Some e))
          else
            let* _ := log i tx
              (errors.Errorf "received unhandleable receipt error, marking tx as failed: " e) in
            let* r := transactionFailed i tx in
            ret (Return r)
      | None =>
          match status with
          | StatusSucceeded =>
              let* r := transactionSuccess i tx in
              ret (Return r)
          | _ => ret (Continue tx)
          end
      end
  | CaseIncrease =>
      let* (newTx, err) := increaseGasPrice i tx in
      match err with
      | Some e =>
          if negb (isBlockchainErrorUnhandleable e) then ret (Return (Some e))
          else
            let* _ := log i tx
              (errors.Errorf "received unhandleable increase error, marking tx as failed: " e) in
            let* r := transactionFailed i tx in
            ret (Return r)
      | None => ret (Continue newTx)
      end
  | CaseTimeout =>
      let* r := transactionFailed i tx in
      ret (Return r)
  end.

(** [watchAndIncrement] along the cases its selects take, in order.  When
    the cases run out before the loop returns, the watcher is still waiting
    in its [select] with the transaction it holds. *)
Fixpoint watchAndIncrement (i : GasPriceIncremenetor) (tx : Transaction)
    (cases : list selected) : Go turn :=
  match cases with
  | [] => ret (Continue tx)
  | c :: rest =>
      let* t := watchTurn i tx c in
      match t with
      | Continue tx' => watchAndIncrement i tx' rest
      | Return err => ret (Return err)
      end
  end.

(** The goroutine [tryWatch] starts for [tx]; [txRemoveWatched] is its
    deferred call.  A watcher still waiting in its [select] has not reached
    the code after [watchAndIncrement]. *)
Definition watcher (i : GasPriceIncremenetor) (tx : Transaction) (cases : list selected)
    : Go unit :=
  let* t := watchAndIncrement i tx cases in
  match t with
  | Continue _ => ret tt
  | Return None => txRemoveWatched tx
  | Return (Some err) =>
      let* _ := log i tx err in
      let* expired := isExpired i tx in
      if negb expired then txRemoveWatched tx
      else
        let* err := transactionFailed i tx in
        let* _ := match err with
                  | Some e => log i tx e
                  | None => ret tt
                  end in
        txRemoveWatched tx
  end.

Definition tryWatch (i : GasPriceIncremenetor) (tx : Transaction) : Go unit :=
  let* being := txBeingWatched tx in
  if being : bool then ret tt
  else
    match validate (Opts tx) with
    | Some err =>
        log i tx (errors.Errorf "can't increment gas price, got wrong tx opts: " err)
    | None =>
        let* _ := txMarkBeingWatched tx in
        goWatcher tx
    end.

(** *** The poll loop *)

(** [process] of [Run]. *)
Fixpoint process (i : GasPriceIncremenetor) (txs : list Transaction) : Go unit :=
  match txs with
  | [] => ret tt
  | tx :: rest =>
      let* _ := match State tx with
                | TxStateFailed | TxStateSucceed => ret tt
                | _ => tryWatch i tx
                end in
      process i rest
  end.

(** The case a [select] of [Run] takes. *)
Inductive polled : Type :=
  | PollStop     (* <-i.stop *)
  | PollPull.    (* <-time.After(i.cfg.PullInterval) *)

Fixpoint Run (i : GasPriceIncremenetor) (cases : list polled) : Go unit :=
  match cases with
  | [] => ret tt
  | PollStop :: _ => ret tt
  | PollPull :: rest =>
      let* (txs, err) := storageToCheck i (getSigners (signers i)) in
      let* _ := match err with
                | Some _ => ret tt
                | None => process i txs
                end in
      Run i rest
  end.

(* ===================================================================== *)
(** ** Vocabulary of the statements *)
(* ===================================================================== *)

(** [err] is the sentinel [s] or wraps it, at any depth. *)
Inductive wraps (s : sentinel) : error -> Prop :=
  | wraps_here : wraps s (Sentinel s)
  | wraps_inner prefix inner : wraps s inner -> wraps s (Wrapf prefix inner).

(** The error directly under [err] reads exactly as the sentinel [s] does. *)
Definition causeReads (s : sentinel) (err : error) : Prop :=
  exists prefix inner, err = Wrapf prefix inner /\ errors.Error inner = errors.sentinel_text s.

(** What the code takes for an unrecoverable error: one that wraps one of
    the three sentinels, or whose direct cause has the text of one of the
    two nonce errors. *)
Definition indicatesUnrecoverable (err : error) : Prop :=
  wraps SentNonceTooHigh err \/ wraps SentNonceTooLow err \/ wraps SentNotFound err
  \/ causeReads SentNonceTooLow err \/ causeReads SentNonceTooHigh err.

(** The states the poll loop takes for final: [Failed] and [Succeeded]. *)
Definition terminal (s : TransactionState) : bool :=
  match s with
  | TxStateFailed | TxStateSucceed => true
  | _ => false
  end.

(** The persisted state of the record with identifier [id], if any. *)
Definition persistedState (w : World) (id : string) : option TransactionState :=
  State <$> stored w !! id.

(** The gas price carried by a record's [LatestTx], if it decodes. *)
Definition latestGasPrice (tx : Transaction) : option Z :=
  match getLatestTx tx with
  | Ok org => Some (types.GasPrice org)
  | Err _ => None
  end.

(** Signing leaves the gas price of a transaction alone. *)
Definition signersKeepGasPrice (s : Signers) : Prop :=
  forall a f t tx chainID signed,
    s !! a = Some f -> f t tx chainID = Ok signed -> types.GasPrice signed = types.GasPrice tx.

(** A write respects the ceiling [maxPrice]: a record written in state
    [PriceIncreased] carries a decodable transaction priced at most
    [maxPrice]. *)
Definition respectsCeiling (maxPrice : Z) (rec : Transaction) : Prop :=
  State rec = TxStatePriceIncreased ->
  exists price, latestGasPrice rec = Some price /\ price <= maxPrice.

(** [w'] holds the records, the writes and the broadcasts of [w]. *)
Definition sameRecords (w w' : World) : Prop :=
  stored w' = stored w /\ upserts w' = upserts w /\ broadcasts w' = broadcasts w.

(** [c] only issues writes that satisfy [P] and only hands the chain
    transactions that satisfy [B] (whether they are accepted or not, and
    whether [c] ends or panics), and a value it returns satisfies [Q]. *)
Definition effects {A} (P : Transaction -> Prop) (B : Z * types.Transaction -> Prop)
    (Q : A -> Prop) (c : Go A) : Prop :=
  forall w,
    (exists new, upserts (snd (c w)) = (new ++ upserts w)%list /\ Forall P new)
    /\ (exists sent, broadcasts (snd (c w)) = (sent ++ broadcasts w)%list /\ Forall B sent)
    /\ (forall a, fst (c w) = Value a -> Q a).

(** A broadcast is priced at most [maxPrice]. *)
Definition pricedWithin (maxPrice : Z) (sent : Z * types.Transaction) : Prop :=
  types.GasPrice (snd sent) <= maxPrice.

(** The ceiling a transaction's opts set, if any, is [maxPrice]. *)
Definition ceilingIs (maxPrice : Z) (tx : Transaction) : Prop :=
  forall mp, MaxPrice (Opts tx) = Some mp -> mp = maxPrice.

(** The transaction a turn of the loop goes on with, if it goes on, has
    the ceiling [maxPrice]. *)
Definition holds (maxPrice : Z) (t : turn) : Prop :=
  match t with
  | Continue tx => ceilingIs maxPrice tx
  | Return _ => True
  end.

(** On a check turn for [tx] in world [w] the status query fails with the
    chain's error [e], which [getTxStatus] hands on as [wrapped]: either
    [TransactionByHash] fails, or it reports the transaction as not pending
    and [TransactionReceipt] fails. *)
Definition statusQueryFails (i : GasPriceIncremenetor) (tx : Transaction) (w : World)
    (e wrapped : error) : Prop :=
  exists org,
    getLatestTx tx = Ok org
    /\ ((exists pending,
           TransactionByHash (bc i) (now w) (ChainID tx) (types.TxHash org) = (pending, Some e))
         /\ wrapped = errors.Errorf "failed to get transaction by hash: " e
        \/
        TransactionByHash (bc i) (now w) (ChainID tx) (types.TxHash org) = (false, None)
        /\ TransactionReceipt (bc i) (S (now w)) (ChainID tx) (types.TxHash org) = Err e
        /\ wrapped = errors.Errorf "failed to get transaction receipt: " e).

(** On an increase turn for [tx] in world [w] the new price is within the
    ceiling, the rebuilt transaction is signed, and its broadcast fails
    with the chain's error [e]. *)
Definition broadcastFails (i : GasPriceIncremenetor) (tx : Transaction) (w : World)
    (e : error) : Prop :=
  exists org newPrice maxPrice signer signed,
    getLatestTx tx = Ok org
    /\ newGasPriceOf (PriceMultiplier (Opts tx)) (types.GasPrice org) = Some newPrice
    /\ MaxPrice (Opts tx) = Some maxPrice
    /\ newPrice <= maxPrice
    /\ getSignerFunc (signers i) (SenderAddressHex tx) = (Some signer, true)
    /\ signer (now w) (rebuiledWithNewGasPrice tx org newPrice) (ChainID tx) = Ok signed
    /\ SendTransaction (bc i) (S (now w)) (ChainID tx) signed = Some e.

(** The storage takes the write of [tx] issued at instant [t]. *)
Definition accepted (i : GasPriceIncremenetor) (t : instant) (tx : Transaction) : Prop :=
  UpsertIncrementorTransaction (storage i) t tx = None.

(** [cur] is the record of the same unit of work as [tx]: same identifier,
    chain, sender and opts. *)
Definition sameWork (tx cur : Transaction) : Prop :=
  UniqueID cur = UniqueID tx /\ ChainID cur = ChainID tx
  /\ SenderAddressHex cur = SenderAddressHex tx /\ Opts cur = Opts tx.

(** *** Fixtures for the closed examples *)

Module fixture.

Definition alice : common.Address :=
  common.HexToAddress "0x00000000000000000000000000000000000000aa".

Definition bob : common.Address :=
  common.HexToAddress "0x00000000000000000000000000000000000000bb".

(** A signer that fills in the signature values. *)
Definition sign : SignatureFunc :=
  fun _ tx chainID =>
    Ok (types.mkTransaction (types.ChainId tx) (types.Nonce tx) (types.GasPrice tx)
          (types.Gas tx) (types.To tx) (types.Value tx) (types.Data tx)
          (chainID * 2 + 35) 1 1).

(** A signer that always fails. *)
Definition refuse : SignatureFunc :=
  fun _ _ _ => Err (errors.New "keystore locked").

(** A storage that accepts every write, holds [queue] records per sender
    and has nothing to check. *)
Definition accepting (queue : Z) : Storage :=
  mkStorage (fun _ _ => None) (fun _ _ => ([], None)) (fun _ _ => (queue, None)).

(** A chain on which every transaction stays pending and every broadcast
    is accepted. *)
Definition pendingChain : MultichainClient :=
  mkClient (fun _ _ _ => Err ethereum.NotFound) (fun _ _ _ => None)
    (fun _ _ _ => (true, None)).

(** A chain that cannot be reached. *)
Definition unreachable : MultichainClient :=
  mkClient (fun _ _ _ => Err (errors.New "connection refused"))
    (fun _ _ _ => Some (errors.New "connection refused"))
    (fun _ _ _ => (false, Some (errors.New "connection refused"))).

(** A chain on which every transaction is mined with receipt [status]. *)
Definition minedChain (status : N) : MultichainClient :=
  mkClient (fun _ _ _ => Ok (types.mkReceipt status)) (fun _ _ _ => None)
    (fun _ _ _ => (false, None)).

(** The wall clock: transactions expire at call number [deadline]. *)
Definition clock (deadline : nat) : Ambient :=
  mkAmbient (fun t _ => (deadline <=? t)%nat) (fun _ _ => "tx-1").

Definition incrementor (st : Storage) (chain : MultichainClient) (s : Signers)
    (deadline : nat) : GasPriceIncremenetor :=
  mkIncrementor st chain (mkConfig 1000000000 10) s true (clock deadline).

(** The scenario of the spec: multiplier 2, ceiling 100, gas price 40. *)
Definition opts : TransactionOpts := mkOpts 600 1 10 (Finite 2 0) (Some 100).

Definition payment (gasPrice : Z) : types.Transaction :=
  types.mkTransaction 1 7 gasPrice 21000 (Some bob) 5 [] 37 1 1.

Definition record (gasPrice : Z) : Transaction :=
  mkTx "tx-1" 1 (common.Hex alice) TxStatePending opts (types.Encoded (payment gasPrice)).

(** The world after [InsertInitial] stored [rec]. *)
Definition holding (rec : Transaction) : World :=
  mkWorld 0%nat {[ UniqueID rec := rec ]} [] [] [] ∅ [].

End fixture.

(** *** Vocabulary for an increase that reaches the chain *)

(** At [w] an increase of [tx] gets as far as the broadcast: [LatestTx]
    decodes to [org], the new price [newPrice] is within the ceiling, and
    the signer of the sender turns the rebuilt transaction into [signed]. *)
Definition signsIncrease (i : GasPriceIncremenetor) (tx : Transaction) (w : World)
    (org : types.Transaction) (newPrice : Z) (signed : types.Transaction) : Prop :=
  getLatestTx tx = Ok org
  /\ newGasPriceOf (PriceMultiplier (Opts tx)) (types.GasPrice org) = Some newPrice
  /\ (exists maxPrice, MaxPrice (Opts tx) = Some maxPrice /\ newPrice <= maxPrice)
  /\ exists signer,
       getSignerFunc (signers i) (SenderAddressHex tx) = (Some signer, true)
       /\ signer (now w) (rebuiledWithNewGasPrice tx org newPrice) (ChainID tx) = Ok signed.

(** The record an increase of [tx] writes once [signed] was broadcast. *)
Definition raised (tx : Transaction) (signed : types.Transaction) : Transaction :=
  withLatestTx (withState tx TxStatePriceIncreased) (types.Encoded signed).

(** A storage that refuses the write issued at instant [t] and accepts
    every other one. *)
Definition refusingAt (t : instant) : Storage :=
  mkStorage (fun t' _ => if (t' =? t)%nat then Some (errors.New "disk full") else None)
    (fun _ _ => ([], None)) (fun _ _ => (0, None)).

(** *** Vocabulary for what is handed to the chain *)

(** The broadcast [sent] is on chain [chainID] and carries what a signer
    of the registry returned when called for that chain. *)
Definition signedByRegistered (i : GasPriceIncremenetor) (chainID : Z)
    (sent : Z * types.Transaction) : Prop :=
  fst sent = chainID
  /\ exists a f t unsigned,
       signers i !! a = Some f /\ f t unsigned chainID = Ok (snd sent).

(** The number of increase ticks among the cases taken. *)
Fixpoint increaseTicks (cases : list selected) : nat :=
  match cases with
  | [] => 0
  | CaseIncrease :: rest => S (increaseTicks rest)
  | _ :: rest => increaseTicks rest
  end.

(** Unfolds the plumbing of [Go] computations. *)
Ltac go_unfold :=
  unfold bind, ret, panic, storageUpsert, storageToCheck, storageSenderQueue,
    bcTransactionByHash, bcTransactionReceipt, bcSendTransaction, callSigner, isExpired, log,
    txMarkBeingWatched, txBeingWatched, txRemoveWatched, goWatcher, advance in *.

(* ===================================================================== *)
(** ** Addresses: rendering and reading back *)
(* ===================================================================== *)

Lemma substring_whole (s : string) : String.substring 0 (String.length s) s = s.
Proof. induction s as [|c s IH]; simpl; [reflexivity|]. now rewrite IH. Qed.

Lemma length_hexEncode (b : list byte) :
  String.length (common.hexEncode b) = (2 * length b)%nat.
Proof. induction b as [|x b IH]; simpl; [reflexivity|]. rewrite IH. lia. Qed.

Lemma Hex2Bytes_hexEncode_cons (x : byte) (b : list byte) :
  common.Hex2Bytes (common.hexEncode (x :: b)) = x :: common.Hex2Bytes (common.hexEncode b).
Proof. destruct x; reflexivity. Qed.

Lemma Hex2Bytes_hexEncode (b : list byte) : common.Hex2Bytes (common.hexEncode b) = b.
Proof.
  induction b as [|x b IH]; [reflexivity|].
  rewrite Hex2Bytes_hexEncode_cons. now rewrite IH.
Qed.

Lemma FromHex_0x (s : string) :
  Nat.even (String.length s) = true ->
  common.FromHex (String "0" (String "x" s)) = common.Hex2Bytes s.
Proof.
  intros Hs. unfold common.FromHex.
  change (common.has0xPrefix (String "0" (String "x" s))) with true. cbv iota.
  change (String.length (String "0" (String "x" s)) - 2)%nat with (String.length s - 0)%nat.
  change (String.substring 2 (String.length s - 0) (String "0" (String "x" s)))
    with (String.substring 0 (String.length s - 0) s).
  rewrite Nat.sub_0_r, substring_whole.
  rewrite <- Nat.negb_even, Hs. reflexivity.
Qed.

Lemma FromHex_Hex (a : common.Address) : common.FromHex (common.Hex a) = common.Bytes a.
Proof.
  unfold common.Hex.
  change ("0x" +:+ ?s) with (String "0" (String "x" s)).
  rewrite FromHex_0x.
  - apply Hex2Bytes_hexEncode.
  - rewrite length_hexEncode, Nat.even_mul. reflexivity.
Qed.

Lemma length_Bytes (a : common.Address) : length (common.Bytes a) = common.AddressLength.
Proof. unfold common.Bytes. apply length_vec_to_list. Qed.

Lemma fixed_vec_to_list {A} (d : A) n (v : vec A n) : common.fixed d n (vec_to_list v) = v.
Proof. induction v as [|x n v IH]; simpl; [reflexivity|]. now rewrite IH. Qed.

Lemma ofBytes_Bytes (a : common.Address) : common.ofBytes (common.Bytes a) = a.
Proof.
  destruct a as [v]. unfold common.ofBytes, common.Bytes. cbn [common.addressBytes].
  f_equal. apply fixed_vec_to_list.
Qed.

Lemma BytesToAddress_Bytes (a : common.Address) : common.BytesToAddress (common.Bytes a) = a.
Proof.
  unfold common.BytesToAddress. rewrite length_Bytes, Nat.sub_diag.
  change (drop 0 (common.Bytes a)) with (common.Bytes a).
  rewrite length_Bytes, Nat.sub_diag.
  change (replicate 0 "000"%byte ++ common.Bytes a)%list with (common.Bytes a).
  apply ofBytes_Bytes.
Qed.

(** Reading a rendered address back gives the address. *)
Lemma HexToAddress_Hex (a : common.Address) : common.HexToAddress (common.Hex a) = a.
Proof. unfold common.HexToAddress. rewrite FromHex_Hex. apply BytesToAddress_Bytes. Qed.

Lemma Hex_inj (a b : common.Address) : common.Hex a = common.Hex b -> a = b.
Proof. intros H. rewrite <- (HexToAddress_Hex a), <- (HexToAddress_Hex b). now rewrite H. Qed.

Lemma Hex_not_empty (a : common.Address) : common.Hex a <> "".
Proof. unfold common.Hex. discriminate. Qed.

Lemma HexToAddress_empty : common.HexToAddress "" = common.zeroAddress.
Proof. reflexivity. Qed.

(* ===================================================================== *)
(** ** The signer registry *)
(* ===================================================================== *)

Lemma size_one_singleton (s : Signers) :
  size s = 1%nat -> exists a f, s = {[ a := f ]}.
Proof.
  intros Hsize. rewrite <- length_map_to_list in Hsize.
  destruct (map_to_list s) as [|[a f] [|? ?]] eqn:Hl; simpl in Hsize; try discriminate.
  exists a, f. rewrite <- (list_to_map_to_list s), Hl. reflexivity.
Qed.

Lemma getSignerFunc_lookup (s : Signers) (hex : string) :
  ((size s =? 1)%nat &&
   (String.eqb hex "" || String.eqb hex (common.Hex (common.HexToAddress "")))) = false ->
  getSignerFunc s hex =
    (s !! common.HexToAddress hex, bool_decide (is_Some (s !! common.HexToAddress hex))).
Proof. intros H. unfold getSignerFunc. rewrite H. reflexivity. Qed.

Lemma getSignerFunc_fallback (a : common.Address) (f : SignatureFunc) (hex : string) :
  hex = "" \/ hex = common.Hex common.zeroAddress ->
  getSignerFunc {[ a := f ]} hex = (Some f, true).
Proof.
  intros Hhex. unfold getSignerFunc.
  rewrite map_size_singleton, map_to_list_singleton. cbn [Nat.eqb andb].
  replace (String.eqb hex "" || String.eqb hex (common.Hex (common.HexToAddress "")))
    with true; [reflexivity|].
  symmetry. apply orb_true_iff.
  destruct Hhex as [-> | ->]; [left | right]; apply String.eqb_refl.
Qed.

(** C6. Signer registry: with exactly one signer registered, resolving the
    empty string or the rendering of the zero address returns that signer,
    found, whatever address it is registered under; and a non-empty string
    whose address is not registered, outside that fallback, resolves to
    not found. *)
Theorem getSignerFunc_resolution (s : Signers) :
  (forall hex, size s = 1%nat -> hex = "" \/ hex = common.Hex common.zeroAddress ->
     exists a f, s = {[ a := f ]} /\ getSignerFunc s hex = (Some f, true))
  /\
  (forall hex, hex <> "" ->
     ~ (size s = 1%nat /\ hex = common.Hex common.zeroAddress) ->
     s !! common.HexToAddress hex = None ->
     getSignerFunc s hex = (None, false)).
Proof.
  split.
  - intros hex Hsize Hhex.
    destruct (size_one_singleton s Hsize) as (a & f & ->).
    exists a, f. split; [reflexivity|]. now apply getSignerFunc_fallback.
  - intros hex Hne Hnofb Hnone.
    rewrite getSignerFunc_lookup.
    + rewrite Hnone. reflexivity.
    + apply andb_false_iff.
      destruct (Nat.eqb_spec (size s) 1) as [Hsize|]; [right | now left].
      apply orb_false_iff. split.
      * now apply String.eqb_neq.
      * apply String.eqb_neq. intros ->. apply Hnofb. split; [exact Hsize|].
        now rewrite HexToAddress_empty.
Qed.

(** The registry of one signer, [alice]: the empty string resolves to her
    signer, and [bob]'s address to none. *)
Lemma getSignerFunc_resolution_witness :
  getSignerFunc {[ fixture.alice := fixture.sign ]} "" = (Some fixture.sign, true)
  /\ getSignerFunc {[ fixture.alice := fixture.sign ]} (common.Hex fixture.bob) = (None, false).
Proof.
  destruct (getSignerFunc_resolution {[ fixture.alice := fixture.sign ]}) as [Hone Hother].
  split.
  - destruct (Hone "") as (a & f & Heq & Hget).
    + apply map_size_singleton.
    + now left.
    + rewrite Hget. f_equal. f_equal.
      assert (Hl : ({[ a := f ]} : Signers) !! fixture.alice = Some fixture.sign)
        by (rewrite <- Heq; apply lookup_singleton_eq).
      apply lookup_singleton_Some in Hl. destruct Hl as [_ ->]. reflexivity.
  - apply Hother.
    + apply Hex_not_empty.
    + intros [_ Hzero]. apply Hex_inj in Hzero. vm_compute in Hzero. discriminate.
    + rewrite HexToAddress_Hex. apply lookup_singleton_ne. vm_compute. discriminate.
Defined.

Lemma CanSign_unfold (i : GasPriceIncremenetor) (a : common.Address) :
  CanSign i a =
    if (size (signers i) =? 1)%nat && bool_decide (a = common.zeroAddress)
    then true
    else bool_decide (is_Some (signers i !! a)).
Proof.
  unfold CanSign.
  destruct ((size (signers i) =? 1)%nat && bool_decide (a = common.zeroAddress)) eqn:Hfb.
  - apply andb_true_iff in Hfb as [Hsize Ha].
    apply Nat.eqb_eq in Hsize. apply bool_decide_eq_true in Ha. subst a.
    destruct (size_one_singleton _ Hsize) as (k & f & Hs). rewrite Hs.
    rewrite getSignerFunc_fallback; [reflexivity | now right].
  - rewrite getSignerFunc_lookup.
    + cbn [snd]. now rewrite HexToAddress_Hex.
    + apply andb_false_iff in Hfb as [Hsize | Ha]; apply andb_false_iff; [now left | right].
      apply orb_false_iff. split.
      * apply String.eqb_neq, Hex_not_empty.
      * apply String.eqb_neq. intros Heq. apply Hex_inj in Heq.
        apply bool_decide_eq_false in Ha. apply Ha. now rewrite Heq, HexToAddress_empty.
Qed.

(** C7, as stated, fails: with [alice] the only signer, [CanSign] of the
    zero address is true although nothing is registered for it. *)
Lemma CanSign_exact_address_counterexample :
  let i := fixture.incrementor (fixture.accepting 0) fixture.pendingChain
             {[ fixture.alice := fixture.sign ]} 0 in
  CanSign i common.zeroAddress = true /\ signers i !! common.zeroAddress = None.
Proof. split; vm_compute; reflexivity. Qed.

(** C7, amended. [CanSign] is true exactly when a signer is registered for
    the address, or the address is the zero address and exactly one signer
    is registered. *)
Theorem CanSign_iff (i : GasPriceIncremenetor) (a : common.Address) :
  CanSign i a = true <->
  is_Some (signers i !! a) \/ (size (signers i) = 1%nat /\ a = common.zeroAddress).
Proof.
  rewrite CanSign_unfold.
  destruct (Nat.eqb_spec (size (signers i)) 1) as [Hsize | Hsize];
    destruct (decide (a = common.zeroAddress)) as [Ha | Ha].
  - rewrite (bool_decide_eq_true_2 _ Ha). cbn [andb]. split; [intros _; now right | reflexivity].
  - rewrite (bool_decide_eq_false_2 _ Ha). cbn [andb]. rewrite bool_decide_eq_true.
    split; [now left | intros [H | [_ H]]; [exact H | contradiction]].
  - cbn [andb]. rewrite bool_decide_eq_true.
    split; [now left | intros [H | [H _]]; [exact H | contradiction]].
  - cbn [andb]. rewrite bool_decide_eq_true.
    split; [now left | intros [H | [H _]]; [exact H | contradiction]].
Qed.

(* ===================================================================== *)
(** ** Admission: CanQueue and InsertInitial *)
(* ===================================================================== *)

(** C9. [CanQueue] answers true exactly when the queue length the storage
    reports for the sender is strictly below [MaxQueuePerSigner], false
    exactly when it is at or above it; when the lookup fails it answers
    false together with the storage's error.  It writes nothing. *)
Theorem CanQueue_below_limit (i : GasPriceIncremenetor) (sender : common.Address) (w : World)
    (length : Z) (err : option error) :
  GetIncrementorSenderQueue (storage i) (now w) (common.Hex sender) = (length, err) ->
  match err with
  | None =>
      exists b, fst (CanQueue i sender w) = Value (b, None)
                /\ (b = true <-> length < MaxQueuePerSigner (cfg i))
                /\ (b = false <-> MaxQueuePerSigner (cfg i) <= length)
  | Some e => fst (CanQueue i sender w) = Value (false, Some e)
  end
  /\ sameRecords w (snd (CanQueue i sender w)).
Proof.
  intros Hq. unfold CanQueue. go_unfold. rewrite Hq.
  destruct err as [e|]; cbn [fst snd].
  - split; [reflexivity | repeat split].
  - split; [| repeat split].
    exists (length <? MaxQueuePerSigner (cfg i)). split; [reflexivity|].
    destruct (Z.ltb_spec length (MaxQueuePerSigner (cfg i))); split; split;
      intros; try lia; try reflexivity; try discriminate.
Qed.

(** A sender with 3 queued transactions under a limit of 10 may queue. *)
Lemma CanQueue_below_limit_witness :
  fst (CanQueue (fixture.incrementor (fixture.accepting 3) fixture.pendingChain ∅ 0)
         fixture.alice emptyWorld) = Value (true, None).
Proof.
  destruct (CanQueue_below_limit
              (fixture.incrementor (fixture.accepting 3) fixture.pendingChain ∅ 0)
              fixture.alice emptyWorld 3 None eq_refl) as [(b & Hb & Hlt & _) _].
  rewrite Hb. f_equal. f_equal. apply Hlt. vm_compute. reflexivity.
Defined.

(** C8. [InsertInitial] with invalid opts returns an error and leaves the
    world as it was; with valid opts it issues exactly one write, of a
    record in state [Pending] whose [LatestTx] decodes to the transaction
    given, and starts no watcher. *)
Theorem InsertInitial_spec (i : GasPriceIncremenetor) (tx : types.Transaction)
    (opts : TransactionOpts) (senderAddress : common.Address) (w : World) :
  match validate opts with
  | Some err =>
      InsertInitial i tx opts senderAddress w
      = (Value (Some (errors.Errorf "invalid opts given: " err)), w)
  | None =>
      exists rec,
        let w' := snd (InsertInitial i tx opts senderAddress w) in
        fst (InsertInitial i tx opts senderAddress w)
        = Value (UpsertIncrementorTransaction (storage i) (S (now w)) rec)
        /\ upserts w' = rec :: upserts w
        /\ State rec = TxStatePending
        /\ getLatestTx rec = Ok tx
        /\ Opts rec = opts
        /\ SenderAddressHex rec = common.Hex senderAddress
        /\ started w' = started w
        /\ watched w' = watched w
        /\ (UpsertIncrementorTransaction (storage i) (S (now w)) rec = None ->
            stored w' !! UniqueID rec = Some rec)
        /\ (UpsertIncrementorTransaction (storage i) (S (now w)) rec <> None ->
            stored w' = stored w)
  end.
Proof.
  unfold InsertInitial. destruct (validate opts) as [err|]; [reflexivity|].
  unfold newTransaction, types.MarshalJSON. go_unfold.
  eexists. cbn [fst snd now upserts stored started watched].
  split; [reflexivity|]. split; [reflexivity|].
  repeat (split; [reflexivity|]).
  split.
  - intros ->. apply lookup_insert_eq.
  - intros Hne. destruct (UpsertIncrementorTransaction _ _ _); [reflexivity | contradiction].
Qed.

(** [InsertInitial] on the spec's scenario stores one pending record of
    the payment; with the zero opts it stores nothing. *)
Lemma InsertInitial_spec_witness :
  (exists rec,
     upserts (snd (InsertInitial
                     (fixture.incrementor (fixture.accepting 0) fixture.pendingChain ∅ 0)
                     (fixture.payment 40) fixture.opts fixture.alice emptyWorld)) = [rec]
     /\ State rec = TxStatePending /\ getLatestTx rec = Ok (fixture.payment 40))
  /\ snd (InsertInitial (fixture.incrementor (fixture.accepting 0) fixture.pendingChain ∅ 0)
            (fixture.payment 40) zeroOpts fixture.alice emptyWorld) = emptyWorld.
Proof.
  split.
  - pose proof (InsertInitial_spec
                  (fixture.incrementor (fixture.accepting 0) fixture.pendingChain ∅ 0)
                  (fixture.payment 40) fixture.opts fixture.alice emptyWorld) as H.
    change (validate fixture.opts) with (@None error) in H. cbv beta iota zeta in H.
    destruct H as (rec & _ & Hup & Hst & Hlt & _).
    exists rec. repeat split; assumption.
  - pose proof (InsertInitial_spec
                  (fixture.incrementor (fixture.accepting 0) fixture.pendingChain ∅ 0)
                  (fixture.payment 40) zeroOpts fixture.alice emptyWorld) as H.
    change (validate zeroOpts) with (Some (errors.New "timeout must be positive")) in H.
    cbv beta iota in H. rewrite H. reflexivity.
Defined.

(* ===================================================================== *)
(** ** The watcher: one turn of the loop *)
(* ===================================================================== *)

Lemma bcTxStatusFromReceipt_failed (i : GasPriceIncremenetor) (tx : Transaction)
    (rcp : types.Receipt) (w : World) :
  types.Status rcp <> types.ReceiptStatusSuccessful ->
  exists w', bcTxStatusFromReceipt i tx rcp w = (Value StatusFailed, w')
             /\ sameRecords w w' /\ now w' = now w /\ watched w' = watched w
             /\ started w' = started w.
Proof.
  intros Hst. unfold bcTxStatusFromReceipt.
  destruct (N.eqb_spec (types.Status rcp) types.ReceiptStatusSuccessful); [contradiction|].
  destruct (N.eqb_spec (types.Status rcp) types.ReceiptStatusFailed).
  - exists w. repeat split.
  - go_unfold. destruct (logFn i); eexists; repeat split.
Qed.

(** C10. A check turn whose status query succeeds with a receipt that is
    not a successful one: the status is [StatusFailed], nothing is written
    or broadcast, and the loop goes round again with the same transaction,
    so the cases that follow are handled as if the check had not
    happened. *)
Theorem check_reverted_receipt_keeps_watching (i : GasPriceIncremenetor) (tx : Transaction)
    (w : World) (org : types.Transaction) (rcp : types.Receipt) (rest : list selected) :
  getLatestTx tx = Ok org ->
  TransactionByHash (bc i) (now w) (ChainID tx) (types.TxHash org) = (false, None) ->
  TransactionReceipt (bc i) (S (now w)) (ChainID tx) (types.TxHash org) = Ok rcp ->
  types.Status rcp <> types.ReceiptStatusSuccessful ->
  exists w',
    watchTurn i tx CaseCheck w = (Value (Continue tx), w')
    /\ fst (getTxStatus i tx w) = Value (StatusFailed, None)
    /\ sameRecords w w'
    /\ watched w' = watched w
    /\ watchAndIncrement i tx (CaseCheck :: rest) w = watchAndIncrement i tx rest w'.
Proof.
  intros Horg Hby Hrcp Hst.
  assert (Hstatus : exists w',
             getTxStatus i tx w = (Value (StatusFailed, None), w')
             /\ sameRecords w w' /\ watched w' = watched w).
  { unfold getTxStatus. rewrite Horg. unfold bind at 1. unfold bcTransactionByHash.
    rewrite Hby. unfold bind at 1. unfold bcTransactionReceipt.
    cbn [advance now]. rewrite Hrcp. unfold bind at 1.
    destruct (bcTxStatusFromReceipt_failed i tx rcp (advance (advance w)) Hst)
      as (w' & -> & Hsame & _ & Hw & _).
    exists w'. split; [reflexivity|]. split; [exact Hsame | exact Hw]. }
  destruct Hstatus as (w' & Hget & Hsame & Hw).
  exists w'.
  assert (Hturn : watchTurn i tx CaseCheck w = (Value (Continue tx), w')).
  { unfold watchTurn. unfold bind at 1. rewrite Hget. reflexivity. }
  split; [exact Hturn|]. split; [now rewrite Hget|]. split; [exact Hsame|].
  split; [exact Hw|].
  cbn [watchAndIncrement]. unfold bind at 1. rewrite Hturn. reflexivity.
Qed.

(** A transaction mined with a failed receipt (status 0) keeps being
    watched: the check turn holds on to the record and writes nothing. *)
Lemma check_reverted_receipt_keeps_watching_witness :
  exists w',
    watchTurn (fixture.incrementor (fixture.accepting 0) (fixture.minedChain 0)
                 {[ fixture.alice := fixture.sign ]} 100)
      (fixture.record 40) CaseCheck emptyWorld
    = (Value (Continue (fixture.record 40)), w')
    /\ upserts w' = [].
Proof.
  destruct (check_reverted_receipt_keeps_watching
              (fixture.incrementor (fixture.accepting 0) (fixture.minedChain 0)
                 {[ fixture.alice := fixture.sign ]} 100)
              (fixture.record 40) emptyWorld (fixture.payment 40) (types.mkReceipt 0) [])
    as (w' & Hturn & _ & (_ & Hup & _) & _).
  - reflexivity.
  - reflexivity.
  - reflexivity.
  - vm_compute. discriminate.
  - exists w'. split; [exact Hturn | exact Hup].
Defined.

(* ===================================================================== *)
(** ** What a computation writes and broadcasts *)
(* ===================================================================== *)

Section Effects.

Context (P : Transaction -> Prop) (B : Z * types.Transaction -> Prop).

Lemma effects_ret {A} (Q : A -> Prop) (a : A) : Q a -> effects P B Q (ret a).
Proof.
  intros Ha w. split; [|split].
  - exists []. split; [reflexivity | constructor].
  - exists []. split; [reflexivity | constructor].
  - intros a' [= <-]. exact Ha.
Qed.

Lemma effects_panic {A} (Q : A -> Prop) : effects P B Q (@panic A).
Proof.
  intros w. split; [|split].
  - exists []. split; [reflexivity | constructor].
  - exists []. split; [reflexivity | constructor].
  - intros a' [=].
Qed.

Lemma effects_bind {A C} (Q : A -> Prop) (R : C -> Prop) (c : Go A) (k : A -> Go C) :
  effects P B Q c -> (forall a, Q a -> effects P B R (k a)) -> effects P B R (bind c k).
Proof.
  intros Hc Hk w. destruct (Hc w) as [(new & Hnew & HP) [(sent & Hsent & HB) HQ]].
  unfold bind. destruct (c w) as [[a|] w1] eqn:Hcw; cbn [fst snd] in *.
  - destruct (Hk a (HQ a eq_refl) w1) as [(new' & Hnew' & HP') [(sent' & Hsent' & HB') HR]].
    split; [|split]; [| |exact HR].
    + exists (new' ++ new)%list. rewrite Hnew', Hnew, app_assoc. split; [reflexivity|].
      apply Forall_app. split; assumption.
    + exists (sent' ++ sent)%list. rewrite Hsent', Hsent, app_assoc. split; [reflexivity|].
      apply Forall_app. split; assumption.
  - split; [|split]; [| |intros b [=]].
    + exists new. split; assumption.
    + exists sent. split; assumption.
Qed.

(** A computation that neither writes nor broadcasts. *)
Lemma effects_silent {A} (c : Go A) :
  (forall w, upserts (snd (c w)) = upserts w /\ broadcasts (snd (c w)) = broadcasts w) ->
  effects P B (fun _ => True) c.
Proof.
  intros Hc w. destruct (Hc w) as [Hu Hb]. split; [|split]; [| |trivial].
  - exists []. split; [exact Hu | constructor].
  - exists []. split; [exact Hb | constructor].
Qed.

Lemma effects_storageUpsert (i : GasPriceIncremenetor) (tx : Transaction) :
  P tx -> effects P B (fun _ => True) (storageUpsert i tx).
Proof.
  intros Htx w. split; [|split]; [| |trivial].
  - exists [tx]. split; [reflexivity | repeat constructor; exact Htx].
  - exists []. split; [reflexivity | constructor].
Qed.

Lemma effects_log (i : GasPriceIncremenetor) (tx : Transaction) (err : error) :
  effects P B (fun _ => True) (log i tx err).
Proof. apply effects_silent. intros w. unfold log. destruct (logFn i); split; reflexivity. Qed.

Lemma effects_transactionFailed (i : GasPriceIncremenetor) (tx : Transaction) :
  P (withState tx TxStateFailed) -> effects P B (fun _ => True) (transactionFailed i tx).
Proof.
  intros Htx. unfold transactionFailed.
  eapply effects_bind; [apply effects_storageUpsert, Htx|].
  intros [e|] _; apply effects_ret; trivial.
Qed.

Lemma effects_transactionSuccess (i : GasPriceIncremenetor) (tx : Transaction) :
  P (withState tx TxStateSucceed) -> effects P B (fun _ => True) (transactionSuccess i tx).
Proof.
  intros Htx. unfold transactionSuccess.
  eapply effects_bind; [apply effects_storageUpsert, Htx|].
  intros [e|] _; apply effects_ret; trivial.
Qed.

Lemma effects_getTxStatus (i : GasPriceIncremenetor) (tx : Transaction) :
  effects P B (fun _ => True) (getTxStatus i tx).
Proof.
  apply effects_silent. intros w. unfold getTxStatus, bcTxStatusFromReceipt.
  destruct (getLatestTx tx); [|split; reflexivity]. go_unfold.
  destruct (TransactionByHash _ _ _ _) as [[|] [e|]]; try (split; reflexivity).
  cbn [now]. destruct (TransactionReceipt _ _ _ _) as [rcp|e]; [|split; reflexivity].
  destruct (N.eqb _ _); [split; reflexivity|]. destruct (N.eqb _ _); [split; reflexivity|].
  destruct (logFn i); split; reflexivity.
Qed.

(** The signer [getSignerFunc] finds is one of the registry. *)
Lemma getSignerFunc_registered (s : Signers) (hex : string) (f : SignatureFunc) (ok : bool) :
  getSignerFunc s hex = (Some f, ok) -> exists a, s !! a = Some f.
Proof.
  unfold getSignerFunc. destruct (_ && _).
  - destruct (map_to_list s) as [|[k v] l] eqn:Hl.
    + intros [= Hlook _]. eauto.
    + intros [= -> _]. exists k. apply elem_of_map_to_list. rewrite Hl. left.
  - intros [= Hlook _]. eauto.
Qed.

Lemma effects_signAndSend (i : GasPriceIncremenetor) (tx : types.Transaction) (chainID : Z)
    (hex : string) :
  (forall a f t signed, signers i !! a = Some f -> f t tx chainID = Ok signed ->
                        B (chainID, signed)) ->
  effects P B
    (fun r => forall signed, r = Ok signed ->
              exists a f t, signers i !! a = Some f /\ f t tx chainID = Ok signed)
    (signAndSend i tx chainID hex).
Proof.
  intros HB w. unfold signAndSend.
  destruct (getSignerFunc (signers i) hex) as [[f|] [|]] eqn:Hget;
    try (apply effects_ret; intros signed [=]).
  destruct (getSignerFunc_registered _ _ _ _ Hget) as [a Ha].
  go_unfold. destruct (f (now w) tx chainID) as [signed|e] eqn:Hf.
  - cbn [fst snd upserts broadcasts now]. split; [|split].
    + exists []. split; [|constructor]. destruct (SendTransaction _ _ _ _); reflexivity.
    + exists [(chainID, signed)]. split.
      * destruct (SendTransaction _ _ _ _); reflexivity.
      * repeat constructor. exact (HB a f (now w) signed Ha Hf).
    + intros r Hr s ->. destruct (SendTransaction _ _ _ _); [discriminate|].
      injection Hr as <-. eauto.
  - cbn [fst snd upserts broadcasts]. split; [|split].
    + exists []. split; [reflexivity | constructor].
    + exists []. split; [reflexivity | constructor].
    + intros r [= <-] s [=].
Qed.

End Effects.

(* ===================================================================== *)
(** ** The gas-price increase *)
(* ===================================================================== *)

Lemma BitLen_abs (x : Z) : big.BitLen (Z.abs x) = big.BitLen x.
Proof. unfold big.BitLen. now rewrite Z.abs_idemp. Qed.

(** With a finite multiplier the new price is the product, rounded to the
    precision of the [big.Float] that receives it, then truncated. *)
Lemma newGasPriceOf_finite (m e p : Z) :
  newGasPriceOf (Finite m e) p
  = big.Int (big.round (Z.max 53 (Z.max (big.BitLen p) 64)) (m * p) e).
Proof. unfold newGasPriceOf. cbn. now rewrite Z.add_0_r. Qed.

Lemma newGasPriceOf_finite_total (m e p : Z) : exists v, newGasPriceOf (Finite m e) p = Some v.
Proof.
  rewrite newGasPriceOf_finite. unfold big.round.
  destruct (_ <=? _); cbn [big.Int]; eauto.
Qed.

(** When the product fits the precision nothing is rounded: the new price
    is the exact product truncated towards zero. *)
Lemma newGasPriceOf_exact (m e p : Z) :
  big.BitLen (m * p) <= Z.max (big.BitLen p) 64 ->
  newGasPriceOf (Finite m e) p
  = Some (if 0 <=? e then m * p * 2 ^ e else Z.quot (m * p) (2 ^ (- e))).
Proof.
  intros Hfit. rewrite newGasPriceOf_finite. unfold big.round. rewrite BitLen_abs.
  destruct (Z.leb_spec (big.BitLen (m * p)) (Z.max 53 (Z.max (big.BitLen p) 64)));
    [reflexivity | lia].
Qed.

Lemma respectsCeiling_failed (maxPrice : Z) (tx : Transaction) :
  respectsCeiling maxPrice (withState tx TxStateFailed).
Proof. intros H. discriminate H. Qed.

Lemma respectsCeiling_succeed (maxPrice : Z) (tx : Transaction) :
  respectsCeiling maxPrice (withState tx TxStateSucceed).
Proof. intros H. discriminate H. Qed.

Lemma ceilingIs_zero (maxPrice : Z) : ceilingIs maxPrice zeroTransaction.
Proof. intros mp H. discriminate H. Qed.

Lemma effects_increaseGasPrice (i : GasPriceIncremenetor) (maxPrice : Z) (tx : Transaction) :
  signersKeepGasPrice (signers i) ->
  ceilingIs maxPrice tx ->
  effects (respectsCeiling maxPrice) (pricedWithin maxPrice)
    (fun r => ceilingIs maxPrice (fst r)) (increaseGasPrice i tx).
Proof.
  intros Hkeep Hceil. unfold increaseGasPrice.
  destruct (getLatestTx tx) as [org|e]; [|apply effects_ret, ceilingIs_zero].
  destruct (newGasPriceOf _ _) as [newGasPrice|]; [|apply effects_panic].
  destruct (MaxPrice (Opts tx)) as [mp|] eqn:Hmax; [|apply effects_panic].
  destruct (Z.ltb_spec mp newGasPrice) as [Hover | Hwithin].
  - eapply effects_bind; [apply effects_transactionFailed, respectsCeiling_failed|].
    intros [e|] _; apply effects_ret, ceilingIs_zero.
  - eapply effects_bind.
    { apply effects_signAndSend. intros a f t signed Ha Hf. unfold pricedWithin. cbn [snd].
      rewrite (Hkeep a f t _ _ _ Ha Hf).
      cbn [rebuiledWithNewGasPrice types.NewTransaction types.GasPrice].
      rewrite <- (Hceil mp Hmax). exact Hwithin. }
    intros [newTx|e] Hsigned.
    + destruct (Hsigned newTx eq_refl) as (a & f & t & Ha & Hf).
      unfold transactionPriceIncreased, types.MarshalJSON.
      eapply effects_bind.
      * apply effects_storageUpsert. intros _. exists (types.GasPrice newTx).
        split; [reflexivity|].
        rewrite (Hkeep a f t _ _ _ Ha Hf).
        cbn [rebuiledWithNewGasPrice types.NewTransaction types.GasPrice].
        rewrite <- (Hceil mp Hmax). exact Hwithin.
      * intros [e|] _; apply effects_ret; [apply ceilingIs_zero|].
        exact Hceil.
    + eapply effects_bind; [apply effects_transactionFailed, respectsCeiling_failed|].
      intros err _. apply effects_ret, ceilingIs_zero.
Qed.

Lemma effects_watchTurn (i : GasPriceIncremenetor) (maxPrice : Z) (tx : Transaction)
    (c : selected) :
  signersKeepGasPrice (signers i) ->
  ceilingIs maxPrice tx ->
  effects (respectsCeiling maxPrice) (pricedWithin maxPrice) (holds maxPrice) (watchTurn i tx c).
Proof.
  intros Hkeep Hceil.
  assert (Hfail : effects (respectsCeiling maxPrice) (pricedWithin maxPrice) (holds maxPrice)
                    (let* r := transactionFailed i tx in ret (Return r))).
  { eapply effects_bind; [apply effects_transactionFailed, respectsCeiling_failed|].
    intros r _. apply effects_ret. exact I. }
  destruct c; cbn [watchTurn].
  - apply effects_ret. exact I.
  - eapply effects_bind; [apply effects_getTxStatus|].
    intros [status [e|]] _.
    + destruct (negb _); [apply effects_ret; exact I|].
      eapply effects_bind; [apply effects_log | intros _ _; exact Hfail].
    + destruct status; try (apply effects_ret; exact Hceil).
      eapply effects_bind; [apply effects_transactionSuccess, respectsCeiling_succeed|].
      intros r _. apply effects_ret. exact I.
  - eapply effects_bind; [apply effects_increaseGasPrice; assumption|].
    intros [newTx [e|]] Hnew.
    + destruct (negb _); [apply effects_ret; exact I|].
      eapply effects_bind; [apply effects_log | intros _ _; exact Hfail].
    + apply effects_ret. exact Hnew.
  - exact Hfail.
Qed.

Lemma effects_watchAndIncrement (i : GasPriceIncremenetor) (maxPrice : Z)
    (cases : list selected) :
  signersKeepGasPrice (signers i) ->
  forall tx, ceilingIs maxPrice tx ->
  effects (respectsCeiling maxPrice) (pricedWithin maxPrice) (holds maxPrice) (watchAndIncrement i tx cases).
Proof.
  intros Hkeep. induction cases as [|c rest IH]; intros tx Hceil; cbn [watchAndIncrement].
  - apply effects_ret. exact Hceil.
  - eapply effects_bind; [apply effects_watchTurn; assumption|].
    intros [tx'|err] Ht.
    + apply IH. exact Ht.
    + apply effects_ret. exact I.
Qed.

(** Over the ceiling: one write, of the transaction in state [Failed];
    nothing is signed or broadcast; the caller gets an error, which is the
    policy violation when the storage took the write. *)
Lemma increaseGasPrice_over_ceiling (i : GasPriceIncremenetor) (tx : Transaction) (w : World)
    (org : types.Transaction) (newPrice maxPrice : Z) :
  getLatestTx tx = Ok org ->
  newGasPriceOf (PriceMultiplier (Opts tx)) (types.GasPrice org) = Some newPrice ->
  MaxPrice (Opts tx) = Some maxPrice ->
  maxPrice < newPrice ->
  exists w' err,
    increaseGasPrice i tx w = (Value (zeroTransaction, Some err), w')
    /\ upserts w' = withState tx TxStateFailed :: upserts w
    /\ broadcasts w' = broadcasts w
    /\ (UpsertIncrementorTransaction (storage i) (now w) (withState tx TxStateFailed) = None ->
        err = gasPriceLimitError tx maxPrice
        /\ stored w' !! UniqueID tx = Some (withState tx TxStateFailed)).
Proof.
  intros Horg Hnew Hmax Hover. unfold increaseGasPrice. rewrite Horg, Hnew, Hmax.
  destruct (Z.ltb_spec maxPrice newPrice); [|lia].
  unfold transactionFailed. go_unfold.
  destruct (UpsertIncrementorTransaction _ _ _) as [e|] eqn:Hup.
  - eexists _, _. split; [reflexivity|]. cbn [upserts broadcasts].
    split; [reflexivity|]. split; [reflexivity|]. intros [=].
  - eexists _, _. split; [reflexivity|]. cbn [upserts broadcasts stored].
    split; [reflexivity|]. split; [reflexivity|]. intros _.
    split; [reflexivity|]. apply lookup_insert_eq.
Qed.

(** C1. Gas-price increase.  For a watched transaction with a decodable
    [LatestTx], a finite multiplier and a ceiling: the new price is the
    [big.Float] product of multiplier and current price truncated to an
    integer (the exact product truncated whenever it fits the precision);
    a new price above the ceiling writes the transaction as [Failed],
    broadcasts nothing and returns the policy violation; and, signers
    leaving the gas price alone, along any cases the watcher's selects
    take, no record it writes carries a raised price above the ceiling and
    no transaction it broadcasts is priced above it. *)
Theorem increaseGasPrice_ceiling (i : GasPriceIncremenetor) (tx : Transaction) (w : World)
    (org : types.Transaction) (m e maxPrice : Z) :
  getLatestTx tx = Ok org ->
  PriceMultiplier (Opts tx) = Finite m e ->
  MaxPrice (Opts tx) = Some maxPrice ->
  exists newPrice,
    newGasPriceOf (PriceMultiplier (Opts tx)) (types.GasPrice org) = Some newPrice
    /\ big.Int (big.round (Z.max 53 (Z.max (big.BitLen (types.GasPrice org)) 64))
                  (m * types.GasPrice org) e) = Some newPrice
    /\ (big.BitLen (m * types.GasPrice org) <= Z.max (big.BitLen (types.GasPrice org)) 64 ->
        newPrice = if 0 <=? e then m * types.GasPrice org * 2 ^ e
                   else Z.quot (m * types.GasPrice org) (2 ^ (- e)))
    /\ (maxPrice < newPrice ->
        exists w' err,
          increaseGasPrice i tx w = (Value (zeroTransaction, Some err), w')
          /\ upserts w' = withState tx TxStateFailed :: upserts w
          /\ broadcasts w' = broadcasts w
          /\ (UpsertIncrementorTransaction (storage i) (now w) (withState tx TxStateFailed) = None ->
              err = gasPriceLimitError tx maxPrice
              /\ stored w' !! UniqueID tx = Some (withState tx TxStateFailed)))
    /\ (signersKeepGasPrice (signers i) ->
        forall cases, exists new sent,
          upserts (snd (watchAndIncrement i tx cases w)) = (new ++ upserts w)%list
          /\ Forall (respectsCeiling maxPrice) new
          /\ broadcasts (snd (watchAndIncrement i tx cases w)) = (sent ++ broadcasts w)%list
          /\ Forall (pricedWithin maxPrice) sent).
Proof.
  intros Horg Hmult Hmax.
  destruct (newGasPriceOf_finite_total m e (types.GasPrice org)) as [newPrice Hnew].
  exists newPrice. rewrite Hmult.
  split; [exact Hnew|]. split; [now rewrite <- newGasPriceOf_finite|].
  split; [|split].
  - intros Hfit. rewrite (newGasPriceOf_exact _ _ _ Hfit) in Hnew. now injection Hnew.
  - intros Hover. apply (increaseGasPrice_over_ceiling i tx w org newPrice maxPrice);
      try assumption. now rewrite Hmult.
  - intros Hkeep cases.
    destruct (effects_watchAndIncrement i maxPrice cases Hkeep tx) with (w := w)
      as [(new & Hw & HP) [(sent & Hsent & HB) _]].
    + intros mp Hmp. rewrite Hmax in Hmp. now injection Hmp.
    + exists new, sent. repeat split; assumption.
Qed.

Lemma fixture_signers_keep_gas_price :
  signersKeepGasPrice {[ fixture.alice := fixture.sign ]}.
Proof.
  intros a f t tx chainID signed Hf Hsigned.
  apply lookup_singleton_Some in Hf as [_ <-]. unfold fixture.sign in Hsigned.
  injection Hsigned as <-. reflexivity.
Qed.

(** The spec's scenario: price 80, multiplier 2, ceiling 100.  The new
    price is 160; the increase writes [Failed] and broadcasts nothing; and
    whatever the watcher writes and broadcasts from price 40 on respects
    the ceiling. *)
Lemma increaseGasPrice_ceiling_witness :
  (exists w' err,
     increaseGasPrice
       (fixture.incrementor (fixture.accepting 0) fixture.pendingChain
          {[ fixture.alice := fixture.sign ]} 100)
       (fixture.record 80) emptyWorld
     = (Value (zeroTransaction, Some err), w')
     /\ upserts w' = [withState (fixture.record 80) TxStateFailed]
     /\ broadcasts w' = [])
  /\ Forall (respectsCeiling 100)
       (upserts (snd (watchAndIncrement
                        (fixture.incrementor (fixture.accepting 0) fixture.pendingChain
                           {[ fixture.alice := fixture.sign ]} 100)
                        (fixture.record 40) [CaseIncrease; CaseIncrease] emptyWorld)))
  /\ Forall (pricedWithin 100)
       (broadcasts (snd (watchAndIncrement
                           (fixture.incrementor (fixture.accepting 0) fixture.pendingChain
                              {[ fixture.alice := fixture.sign ]} 100)
                           (fixture.record 40) [CaseIncrease; CaseIncrease] emptyWorld))).
Proof.
  split.
  - destruct (increaseGasPrice_ceiling
                (fixture.incrementor (fixture.accepting 0) fixture.pendingChain
                   {[ fixture.alice := fixture.sign ]} 100)
                (fixture.record 80) emptyWorld (fixture.payment 80) 2 0 100
                eq_refl eq_refl eq_refl)
      as (newPrice & Hnew & _ & _ & Hover & _).
    vm_compute in Hnew. injection Hnew as <-.
    destruct Hover as (w' & err & Hrun & Hup & Hbc & _); [lia|].
    exists w', err. repeat split; assumption.
  - destruct (increaseGasPrice_ceiling
                (fixture.incrementor (fixture.accepting 0) fixture.pendingChain
                   {[ fixture.alice := fixture.sign ]} 100)
                (fixture.record 40) emptyWorld (fixture.payment 40) 2 0 100
                eq_refl eq_refl eq_refl)
      as (_ & _ & _ & _ & _ & Hall).
    destruct (Hall fixture_signers_keep_gas_price [CaseIncrease; CaseIncrease])
      as (new & sent & -> & Hnew & -> & Hsent).
    rewrite !app_nil_r. split; assumption.
Defined.

(* ===================================================================== *)
(** ** Error classification *)
(* ===================================================================== *)

Lemma errors_Is_wraps (err : error) (s : sentinel) : errors.Is err s = true <-> wraps s err.
Proof.
  induction err as [s' | msg | prefix inner IH]; cbn [errors.Is errors.same].
  - rewrite orb_false_r, bool_decide_eq_true. split.
    + intros ->. constructor.
    + intros H. now inversion H.
  - split; [discriminate | intros H; inversion H].
  - cbn [orb]. rewrite IH. split.
    + intros H. now constructor.
    + intros H. now inversion H.
Qed.

Lemma causeReads_wrapf (s : sentinel) (prefix : string) (inner : error) :
  causeReads s (Wrapf prefix inner) <-> errors.Error inner = errors.sentinel_text s.
Proof.
  split.
  - intros (p & e & [= -> ->] & H). exact H.
  - intros H. now exists prefix, inner.
Qed.

Lemma not_causeReads_leaf (s s' : sentinel) (msg : string) :
  ~ causeReads s (Sentinel s') /\ ~ causeReads s (Leaf msg).
Proof. split; intros (p & e & [=] & _). Qed.

(** The classification predicate decides [indicatesUnrecoverable]. *)
Lemma isBlockchainErrorUnhandleable_iff (err : error) :
  isBlockchainErrorUnhandleable err = true <-> indicatesUnrecoverable err.
Proof.
  unfold isBlockchainErrorUnhandleable, indicatesUnrecoverable.
  rewrite <- !errors_Is_wraps.
  destruct (errors.Is err SentNonceTooHigh); [tauto|].
  destruct (errors.Is err SentNonceTooLow); [tauto|].
  destruct (errors.Is err SentNotFound); [tauto|].
  cbn [orb]. destruct err as [s | msg | prefix inner]; cbn [errors.Unwrap].
  - pose proof (not_causeReads_leaf SentNonceTooLow s "") as [? _].
    pose proof (not_causeReads_leaf SentNonceTooHigh s "") as [? _].
    split; [discriminate | intuition discriminate].
  - pose proof (not_causeReads_leaf SentNonceTooLow SentNotFound msg) as [_ ?].
    pose proof (not_causeReads_leaf SentNonceTooHigh SentNotFound msg) as [_ ?].
    split; [discriminate | intuition discriminate].
  - rewrite !causeReads_wrapf.
    change (errors.Error core.ErrNonceTooLow) with (errors.sentinel_text SentNonceTooLow).
    change (errors.Error core.ErrNonceTooHigh) with (errors.sentinel_text SentNonceTooHigh).
    destruct (String.eqb_spec (errors.Error inner) (errors.sentinel_text SentNonceTooLow));
      [tauto|].
    destruct (String.eqb_spec (errors.Error inner) (errors.sentinel_text SentNonceTooHigh));
      [tauto|].
    cbn [orb]. split; [discriminate | intuition discriminate].
Qed.

(** A failed status query is reported wrapped, and writes nothing. *)
Lemma getTxStatus_fails (i : GasPriceIncremenetor) (tx : Transaction) (w : World)
    (e wrapped : error) :
  statusQueryFails i tx w e wrapped ->
  exists w', getTxStatus i tx w = (Value (StatusFailed, Some wrapped), w')
             /\ sameRecords w w' /\ watched w' = watched w.
Proof.
  intros (org & Horg & [[[pending Hby] ->] | (Hby & Hrcp & ->)]);
    unfold getTxStatus; rewrite Horg; go_unfold; rewrite Hby.
  - eexists. split; [reflexivity | repeat split].
  - cbn [now]. rewrite Hrcp. eexists. split; [reflexivity | repeat split].
Qed.

(** What [transactionFailed] does: one write, stored when accepted. *)
Lemma transactionFailed_run (i : GasPriceIncremenetor) (tx : Transaction) (w : World) :
  exists w' r,
    transactionFailed i tx w = (Value r, w')
    /\ upserts w' = withState tx TxStateFailed :: upserts w
    /\ broadcasts w' = broadcasts w
    /\ watched w' = watched w
    /\ now w' = S (now w)
    /\ (accepted i (now w) (withState tx TxStateFailed) ->
        r = None /\ persistedState w' (UniqueID tx) = Some TxStateFailed)
    /\ (~ accepted i (now w) (withState tx TxStateFailed) ->
        r <> None /\ stored w' = stored w).
Proof.
  unfold transactionFailed, accepted, persistedState. go_unfold.
  destruct (UpsertIncrementorTransaction _ _ _) as [e|] eqn:Hup;
    eexists _, _; (split; [reflexivity|]); cbn [upserts broadcasts watched now stored];
    repeat (split; [reflexivity|]).
  - split; [intros [=] | intros _; split; [discriminate | reflexivity]].
  - split; [intros _ | intros []; reflexivity].
    split; [reflexivity|].
    change (UniqueID tx) with (UniqueID (withState tx TxStateFailed)) at 1.
    rewrite lookup_insert_eq. reflexivity.
Qed.

Lemma log_run (i : GasPriceIncremenetor) (tx : Transaction) (err : error) (w : World) :
  exists w', log i tx err w = (Value tt, w')
             /\ sameRecords w w' /\ watched w' = watched w /\ now w' = now w.
Proof. unfold log. destruct (logFn i); eexists; repeat split. Qed.

(** A check turn whose status query fails: an error classified as
    unrecoverable writes [Failed] and returns; any other is returned with
    nothing written. *)
Lemma watchTurn_check_fails (i : GasPriceIncremenetor) (tx : Transaction) (w : World)
    (e wrapped : error) :
  statusQueryFails i tx w e wrapped ->
  exists w1,
    getTxStatus i tx w = (Value (StatusFailed, Some wrapped), w1)
    /\ (if isBlockchainErrorUnhandleable wrapped
        then exists w' r,
               watchTurn i tx CaseCheck w = (Value (Return r), w')
               /\ upserts w' = withState tx TxStateFailed :: upserts w
               /\ broadcasts w' = broadcasts w
               /\ (accepted i (now w1) (withState tx TxStateFailed) ->
                   r = None /\ persistedState w' (UniqueID tx) = Some TxStateFailed)
        else watchTurn i tx CaseCheck w = (Value (Return (Some wrapped)), w1)
             /\ sameRecords w w1 /\ watched w1 = watched w).
Proof.
  intros Hq. destruct (getTxStatus_fails i tx w e wrapped Hq) as (w1 & Hget & Hsame & Hw).
  exists w1. split; [exact Hget|].
  destruct (isBlockchainErrorUnhandleable wrapped) eqn:Hcls.
  - destruct (log_run i tx
                (errors.Errorf "received unhandleable receipt error, marking tx as failed: "
                   wrapped) w1) as (w2 & Hlog & (_ & Hu2 & Hb2) & _ & Hn2).
    destruct (transactionFailed_run i tx w2) as (w3 & r & Hrun & Hu3 & Hb3 & _ & _ & Hacc & _).
    exists w3, r. unfold watchTurn. unfold bind at 1. rewrite Hget, Hcls. cbn [negb].
    unfold bind at 1. rewrite Hlog. unfold bind, ret. rewrite Hrun.
    destruct Hsame as (_ & Hu1 & Hb1).
    split; [reflexivity|]. split; [now rewrite Hu3, Hu2, Hu1|].
    split; [now rewrite Hb3, Hb2, Hb1|]. rewrite <- Hn2. exact Hacc.
  - unfold watchTurn. unfold bind at 1. rewrite Hget, Hcls. cbn [negb].
    split; [reflexivity|]. split; assumption.
Qed.

(** An increase turn whose broadcast fails writes [Failed], whatever the
    chain's error is. *)
Lemma increaseGasPrice_broadcast_fails (i : GasPriceIncremenetor) (tx : Transaction)
    (w : World) (e : error) :
  broadcastFails i tx w e ->
  exists w' r,
    increaseGasPrice i tx w = (Value (zeroTransaction, r), w')
    /\ upserts w' = withState tx TxStateFailed :: upserts w
    /\ (accepted i (S (S (now w))) (withState tx TxStateFailed) ->
        r = None /\ persistedState w' (UniqueID tx) = Some TxStateFailed).
Proof.
  intros (org & newPrice & maxPrice & signer & signed & Horg & Hnew & Hmax & Hle & Hget
          & Hsign & Hsend).
  unfold increaseGasPrice. rewrite Horg, Hnew, Hmax.
  destruct (Z.ltb_spec maxPrice newPrice); [lia|].
  unfold signAndSend. rewrite Hget.
  unfold bind at 1. unfold bind at 1. unfold callSigner. rewrite Hsign.
  unfold bind at 1. unfold bcSendTransaction. cbn [advance now]. rewrite Hsend. unfold ret at 1.
  set (w1 := mkWorld _ _ _ _ _ _ _).
  destruct (transactionFailed_run i tx w1) as (w2 & r & Hrun & Hu & _ & _ & _ & Hacc & _).
  exists w2, r. unfold bind, ret. rewrite Hrun.
  split; [reflexivity|]. split; [exact Hu | exact Hacc].
Qed.

Lemma not_watched_after_remove (id : string) (s : gset string) : id ∉ s ∖ {[ id ]}.
Proof. intros [_ H]%elem_of_difference. apply H. now apply elem_of_singleton. Qed.

(** The goroutine of [tryWatch] after its loop returned an error: when the
    transaction has not expired nothing is written; when it has, it is
    written as [Failed]. *)
Lemma watcher_after_error (i : GasPriceIncremenetor) (tx : Transaction)
    (cases : list selected) (w w1 : World) (err : error) :
  watchAndIncrement i tx cases w = (Value (Return (Some err)), w1) ->
  exists w2,
    watcher i tx cases w = (Value tt, w2)
    /\ (UniqueID tx ∉ watched w2)
    /\ (if expiredAt (ambient i) (now w1) tx
        then upserts w2 = withState tx TxStateFailed :: upserts w1
             /\ (accepted i (S (now w1)) (withState tx TxStateFailed) ->
                 persistedState w2 (UniqueID tx) = Some TxStateFailed)
        else sameRecords w1 w2).
Proof.
  intros Hloop. unfold watcher. unfold bind at 1. rewrite Hloop.
  destruct (log_run i tx err w1) as (w1' & Hlog & (Hs1 & Hu1 & Hb1) & _ & Hn1).
  unfold bind at 1. rewrite Hlog. unfold bind at 1. unfold isExpired. rewrite Hn1.
  destruct (expiredAt (ambient i) (now w1) tx); cbn [negb].
  - destruct (transactionFailed_run i tx (advance w1'))
      as (w2 & r & Hrun & Hu & _ & _ & _ & Hacc & _).
    unfold bind at 1. rewrite Hrun.
    assert (Hlog2 : exists w3,
               (let* _ := match r with Some e0 => log i tx e0 | None => ret tt end
                in txRemoveWatched tx) w2 = (Value tt, w3)
               /\ upserts w3 = upserts w2 /\ stored w3 = stored w2
               /\ UniqueID tx ∉ watched w3).
    { destruct r as [e0|].
      - destruct (log_run i tx e0 w2) as (w2' & Hlog2 & (Hs2 & Hu2 & _) & _).
        unfold bind. rewrite Hlog2. unfold txRemoveWatched. eexists.
        split; [reflexivity|]. cbn [upserts stored watched].
        split; [exact Hu2|]. split; [exact Hs2 | apply not_watched_after_remove].
      - unfold bind, ret, txRemoveWatched. eexists.
        split; [reflexivity|]. cbn [upserts stored watched].
        repeat (split; [reflexivity|]). apply not_watched_after_remove. }
    destruct Hlog2 as (w3 & Hrest & Hu3 & Hs3 & Hw3).
    exists w3. split; [exact Hrest|]. split; [exact Hw3|].
    split.
    + rewrite Hu3, Hu. cbn [advance upserts]. now rewrite Hu1.
    + intros Hok. unfold persistedState. rewrite Hs3.
      apply Hacc. cbn [advance now]. rewrite Hn1. exact Hok.
  - unfold txRemoveWatched. eexists. split; [reflexivity|]. cbn [watched].
    split; [apply not_watched_after_remove|]. unfold sameRecords. cbn [advance stored upserts broadcasts].
    repeat split; assumption.
Qed.

(** C3, as stated, fails: an error that is not classified as unrecoverable
    does not always leave the persisted state alone.  On a chain that
    cannot be reached ("connection refused", which the predicate does not
    mark), a check turn on a transaction that has expired ends with the
    record [Failed], and so does an increase turn whose broadcast fails,
    expired or not.  Nor is the text of an error enough to mark it as
    not-found: a foreign error reading "not found" is not marked, where one
    reading "nonce too low" is. *)
Lemma transient_error_counterexample :
  let e := errors.New "connection refused" in
  let late := fixture.incrementor (fixture.accepting 0) fixture.unreachable
                {[ fixture.alice := fixture.sign ]} 1 in
  let early := fixture.incrementor (fixture.accepting 0) fixture.unreachable
                 {[ fixture.alice := fixture.sign ]} 1000 in
  let w := fixture.holding (fixture.record 40) in
  isBlockchainErrorUnhandleable e = false
  /\ isBlockchainErrorUnhandleable (errors.Errorf "failed to get transaction by hash: " e) = false
  /\ statusQueryFails late (fixture.record 40) w e
       (errors.Errorf "failed to get transaction by hash: " e)
  /\ persistedState w "tx-1" = Some TxStatePending
  /\ persistedState (snd (watcher late (fixture.record 40) [CaseCheck] w)) "tx-1"
     = Some TxStateFailed
  /\ broadcastFails early (fixture.record 40) w e
  /\ persistedState (snd (watchTurn early (fixture.record 40) CaseIncrease w)) "tx-1"
     = Some TxStateFailed
  /\ isBlockchainErrorUnhandleable
       (errors.Errorf "failed to get transaction receipt: " (errors.New "not found")) = false
  /\ isBlockchainErrorUnhandleable
       (errors.Errorf "failed to get transaction receipt: " (errors.New "nonce too low")) = true.
Proof.
  cbv zeta. repeat split; try (vm_compute; reflexivity).
  - exists (fixture.payment 40). split; [reflexivity|]. left.
    split; [exists false|]; reflexivity.
  - exists (fixture.payment 40), 80, 100, fixture.sign.
    eexists. repeat split; try reflexivity. vm_compute. discriminate.
Qed.

(** C3, amended.  The classification predicate marks an error unrecoverable
    exactly when it wraps nonce-too-high, nonce-too-low or not-found, or
    its direct cause reads exactly as one of the two nonce errors.  On a
    check turn an error of the status query so marked is written as
    [Failed] with no retry; any other is returned with nothing written,
    after which the persisted state is unchanged unless the transaction
    has expired, in which case it is written as [Failed].  An error of the
    broadcast on an increase turn is not classified: it is always written
    as [Failed]. *)
Theorem classification_and_persistence (i : GasPriceIncremenetor) (tx : Transaction)
    (w : World) :
  (forall err, isBlockchainErrorUnhandleable err = true <-> indicatesUnrecoverable err)
  /\
  (forall e wrapped, statusQueryFails i tx w e wrapped ->
     exists w1,
       getTxStatus i tx w = (Value (StatusFailed, Some wrapped), w1)
       /\ (if isBlockchainErrorUnhandleable wrapped
           then exists w' r,
                  watchTurn i tx CaseCheck w = (Value (Return r), w')
                  /\ upserts w' = withState tx TxStateFailed :: upserts w
                  /\ broadcasts w' = broadcasts w
                  /\ (accepted i (now w1) (withState tx TxStateFailed) ->
                      r = None /\ persistedState w' (UniqueID tx) = Some TxStateFailed)
           else watchTurn i tx CaseCheck w = (Value (Return (Some wrapped)), w1)
                /\ sameRecords w w1
                /\ exists w2,
                     watcher i tx [CaseCheck] w = (Value tt, w2)
                     /\ (if expiredAt (ambient i) (now w1) tx
                         then upserts w2 = withState tx TxStateFailed :: upserts w
                              /\ (accepted i (S (now w1)) (withState tx TxStateFailed) ->
                                  persistedState w2 (UniqueID tx) = Some TxStateFailed)
                         else sameRecords w w2)))
  /\
  (forall e, broadcastFails i tx w e ->
     exists w' r,
       increaseGasPrice i tx w = (Value (zeroTransaction, r), w')
       /\ upserts w' = withState tx TxStateFailed :: upserts w
       /\ (accepted i (S (S (now w))) (withState tx TxStateFailed) ->
           r = None /\ persistedState w' (UniqueID tx) = Some TxStateFailed)).
Proof.
  split; [exact isBlockchainErrorUnhandleable_iff|]. split.
  - intros e wrapped Hq.
    destruct (watchTurn_check_fails i tx w e wrapped Hq) as (w1 & Hget & Hturn).
    exists w1. split; [exact Hget|].
    destruct (isBlockchainErrorUnhandleable wrapped); [exact Hturn|].
    destruct Hturn as (Hturn & Hsame & _).
    split; [exact Hturn|]. split; [exact Hsame|].
    assert (Hloop : watchAndIncrement i tx [CaseCheck] w = (Value (Return (Some wrapped)), w1)).
    { cbn [watchAndIncrement]. unfold bind at 1. rewrite Hturn. reflexivity. }
    destruct (watcher_after_error i tx [CaseCheck] w w1 wrapped Hloop) as (w2 & Hrun & _ & Hexp).
    exists w2. split; [exact Hrun|].
    destruct Hsame as (Hs & Hu & Hb).
    destruct (expiredAt (ambient i) (now w1) tx).
    + destruct Hexp as [Hup Hacc]. split; [now rewrite Hup, Hu | exact Hacc].
    + destruct Hexp as (Hs2 & Hu2 & Hb2). repeat split; congruence.
  - intros e. apply increaseGasPrice_broadcast_fails.
Qed.

(** On the chain that cannot be reached, a check turn on a transaction that
    has not expired returns the error and leaves the stored record
    [Pending]. *)
Lemma classification_and_persistence_witness :
  let i := fixture.incrementor (fixture.accepting 0) fixture.unreachable
             {[ fixture.alice := fixture.sign ]} 1000 in
  let w := fixture.holding (fixture.record 40) in
  exists w2,
    watcher i (fixture.record 40) [CaseCheck] w = (Value tt, w2)
    /\ persistedState w2 "tx-1" = Some TxStatePending
    /\ upserts w2 = [].
Proof.
  cbv zeta.
  destruct (classification_and_persistence
              (fixture.incrementor (fixture.accepting 0) fixture.unreachable
                 {[ fixture.alice := fixture.sign ]} 1000)
              (fixture.record 40) (fixture.holding (fixture.record 40)))
    as (_ & Hcheck & _).
  destruct (Hcheck (errors.New "connection refused")
              (errors.Errorf "failed to get transaction by hash: "
                 (errors.New "connection refused")))
    as (w1 & Hget & Hrest).
  { exists (fixture.payment 40). split; [reflexivity|]. left.
    split; [exists false|]; reflexivity. }
  change (isBlockchainErrorUnhandleable _) with false in Hrest.
  destruct Hrest as (_ & _ & w2 & Hrun & Hexp).
  injection Hget as <-.
  change (expiredAt _ _ _) with false in Hexp.
  destruct Hexp as (Hs & Hu & _).
  exists w2. split; [exact Hrun|]. unfold persistedState. rewrite Hs, Hu.
  split; reflexivity.
Defined.

(* ===================================================================== *)
(** ** The overall timeout *)
(* ===================================================================== *)

(** The loop along [pre ++ post] is the loop along [pre], carried on along
    [post] when it has not returned. *)
Lemma watchAndIncrement_app (i : GasPriceIncremenetor) (pre post : list selected) :
  forall tx w,
    watchAndIncrement i tx (pre ++ post) w =
    match watchAndIncrement i tx pre w with
    | (Value (Continue cur), w1) => watchAndIncrement i cur post w1
    | other => other
    end.
Proof.
  induction pre as [|c pre IH]; intros tx w; [reflexivity|].
  cbn [app watchAndIncrement]. unfold bind.
  destruct (watchTurn i tx c w) as [[[tx'|err]|] w'].
  - apply IH.
  - reflexivity.
  - reflexivity.
Qed.

(** The timeout case, from any state of the loop. *)
Lemma watchTurn_timeout (i : GasPriceIncremenetor) (cur : Transaction) (w : World) :
  exists w' r,
    watchTurn i cur CaseTimeout w = (Value (Return r), w')
    /\ upserts w' = withState cur TxStateFailed :: upserts w
    /\ broadcasts w' = broadcasts w
    /\ (accepted i (now w) (withState cur TxStateFailed) ->
        r = None /\ persistedState w' (UniqueID cur) = Some TxStateFailed).
Proof.
  destruct (transactionFailed_run i cur w) as (w' & r & Hrun & Hu & Hb & _ & _ & Hacc & _).
  exists w', r. cbn [watchTurn]. unfold bind, ret. rewrite Hrun.
  split; [reflexivity|]. split; [exact Hu|]. split; [exact Hb | exact Hacc].
Qed.

Lemma sameWork_refl (tx : Transaction) : sameWork tx tx.
Proof. repeat split. Qed.

Lemma sameWork_trans (a b c : Transaction) : sameWork a b -> sameWork b c -> sameWork a c.
Proof. unfold sameWork. intros (? & ? & ? & ?) (? & ? & ? & ?). repeat split; congruence. Qed.

(** What an increase hands back with a nil error: the same work with a new
    [LatestTx], or, after a signing or broadcast failure whose [Failed]
    write the storage took, the zero transaction. *)
Lemma increaseGasPrice_continue (i : GasPriceIncremenetor) (tx newTx : Transaction)
    (w w' : World) :
  increaseGasPrice i tx w = (Value (newTx, None), w') ->
  sameWork tx newTx
  \/ (newTx = zeroTransaction /\ upserts w' = withState tx TxStateFailed :: upserts w).
Proof.
  unfold increaseGasPrice.
  destruct (getLatestTx tx) as [org|e]; [|intros [=]].
  destruct (newGasPriceOf _ _) as [newGasPrice|]; [|intros [=]].
  destruct (MaxPrice (Opts tx)) as [mp|]; [|intros [=]].
  destruct (mp <? newGasPrice).
  - unfold transactionFailed. go_unfold.
    destruct (UpsertIncrementorTransaction _ _ _); intros [=].
  - unfold bind at 1.
    destruct (signAndSend i _ _ _ w) as [[[signed|e]|] w1] eqn:Hsend; [| |intros [=]].
    + unfold transactionPriceIncreased, types.MarshalJSON. go_unfold.
      destruct (UpsertIncrementorTransaction _ _ _); intros [= <- <-].
      left. repeat split.
    + assert (Hw1 : upserts w1 = upserts w).
      { unfold signAndSend in Hsend.
        destruct (getSignerFunc _ _) as [[f|] [|]]; try (injection Hsend as _ <-; reflexivity).
        go_unfold. destruct (f _ _ _); [|injection Hsend as _ <-; reflexivity].
        destruct (SendTransaction _ _ _ _); injection Hsend as _ <-; reflexivity. }
      destruct (transactionFailed_run i tx w1) as (w2 & r & Hrun & Hu & _).
      unfold bind, ret. rewrite Hrun. intros [= <- -> <-].
      right. split; [reflexivity|]. now rewrite Hu, Hw1.
Qed.

(** What a turn that goes round again holds. *)
Lemma watchTurn_continue (i : GasPriceIncremenetor) (tx cur : Transaction) (c : selected)
    (w w' : World) :
  watchTurn i tx c w = (Value (Continue cur), w') ->
  sameWork tx cur
  \/ (cur = zeroTransaction /\ upserts w' = withState tx TxStateFailed :: upserts w).
Proof.
  destruct c; cbn [watchTurn].
  - intros [=].
  - unfold bind at 1. destruct (getTxStatus i tx w) as [[[status [e|]]|] w1]; [| |intros [=]].
    + destruct (negb _); [intros [=]|].
      unfold bind at 1. destruct (log i tx _ w1) as [[[]|] w2]; [|intros [=]].
      unfold bind, ret. destruct (transactionFailed i tx w2) as [[r|] w3]; intros [=].
    + destruct status; try (intros [= <- <-]; left; apply sameWork_refl).
      unfold bind, ret. destruct (transactionSuccess i tx w1) as [[r|] w3]; intros [=].
  - unfold bind at 1.
    destruct (increaseGasPrice i tx w) as [[[newTx [e|]]|] w1] eqn:Hinc; [| |intros [=]].
    + destruct (negb _); [intros [=]|].
      unfold bind at 1. destruct (log i tx _ w1) as [[[]|] w2]; [|intros [=]].
      unfold bind, ret. destruct (transactionFailed i tx w2) as [[r|] w3]; intros [=].
    + intros [= <- <-]. apply (increaseGasPrice_continue i tx newTx w w1 Hinc).
  - unfold bind, ret. destruct (transactionFailed i tx w) as [[r|] w3]; intros [=].
Qed.

(** Holding the zero transaction, every turn returns. *)
Lemma watchTurn_zero_returns (i : GasPriceIncremenetor) (c : selected) (cur : Transaction)
    (w w' : World) :
  watchTurn i zeroTransaction c w <> (Value (Continue cur), w').
Proof.
  destruct c; cbn [watchTurn].
  - intros [=].
  - unfold getTxStatus, bind, ret. cbn. intros [=].
  - unfold increaseGasPrice, bind, ret. cbn. intros [=].
  - unfold bind, ret. destruct (transactionFailed i zeroTransaction w) as [[r|] w3]; intros [=].
Qed.

(** The transaction the loop holds while it is running: the record of the
    watched work, or the zero transaction right after a signing or
    broadcast failure wrote that work as [Failed]. *)
Lemma watchAndIncrement_holds (i : GasPriceIncremenetor) (cases : list selected) :
  forall tx cur w w1,
    watchAndIncrement i tx cases w = (Value (Continue cur), w1) ->
    sameWork tx cur
    \/ (cur = zeroTransaction
        /\ exists last, sameWork tx last
                        /\ head (upserts w1) = Some (withState last TxStateFailed)).
Proof.
  induction cases as [|c rest IH]; intros tx cur w w1; cbn [watchAndIncrement].
  - intros [= <- <-]. left. apply sameWork_refl.
  - unfold bind at 1. destruct (watchTurn i tx c w) as [[[tx'|err]|] w'] eqn:Hturn;
      [| intros [=] | intros [=]].
    intros Hrest.
    destruct (watchTurn_continue i tx tx' c w w' Hturn) as [Hsame | [-> Hup]].
    + destruct (IH tx' cur w' w1 Hrest) as [Hcur | (-> & last & Hlast & Hhead)].
      * left. eapply sameWork_trans; eassumption.
      * right. split; [reflexivity|]. exists last. split; [|exact Hhead].
        eapply sameWork_trans; eassumption.
    + destruct rest as [|c' rest'].
      * cbn [watchAndIncrement] in Hrest. injection Hrest as <- <-.
        right. split; [reflexivity|]. exists tx. split; [apply sameWork_refl|].
        now rewrite Hup.
      * cbn [watchAndIncrement] in Hrest. unfold bind in Hrest.
        destruct (watchTurn i zeroTransaction c' w') as [[[tx''|err]|] w''] eqn:Hz;
          try discriminate Hrest.
        exfalso. exact (watchTurn_zero_returns i c' tx'' w' w'' Hz).
Qed.

(** Once its loop has returned, the goroutine ends and the transaction is
    no longer in the watch set. *)
Lemma watcher_exits (i : GasPriceIncremenetor) (tx : Transaction) (cases : list selected)
    (w w1 : World) (r : option error) :
  watchAndIncrement i tx cases w = (Value (Return r), w1) ->
  exists w2, watcher i tx cases w = (Value tt, w2) /\ UniqueID tx ∉ watched w2.
Proof.
  intros Hloop. destruct r as [err|].
  - destruct (watcher_after_error i tx cases w w1 err Hloop) as (w2 & Hrun & Hw & _).
    exists w2. split; assumption.
  - unfold watcher. unfold bind. rewrite Hloop. unfold txRemoveWatched.
    eexists. split; [reflexivity|]. apply not_watched_after_remove.
Qed.

(** C4. The overall timeout.  Whenever the watcher's loop is still running
    and its select takes the timeout case, the loop writes the transaction
    it holds as [Failed] and returns, and the goroutine ends; the storage
    taking the write, the record is persisted as [Failed].  The transaction
    held is the record of the watched work (or the zero transaction, right
    after a failed signing or broadcast already wrote that work as
    [Failed]).  And when the loop returns an error and the transaction is
    found expired, the goroutine writes it as [Failed] before it ends. *)
Theorem timeout_persists_failed (i : GasPriceIncremenetor) (tx : Transaction) (w : World) :
  (forall pre post cur w1,
     watchAndIncrement i tx pre w = (Value (Continue cur), w1) ->
     exists w2 r,
       watchAndIncrement i tx (pre ++ CaseTimeout :: post) w = (Value (Return r), w2)
       /\ upserts w2 = withState cur TxStateFailed :: upserts w1
       /\ (accepted i (now w1) (withState cur TxStateFailed) ->
           r = None /\ persistedState w2 (UniqueID cur) = Some TxStateFailed)
       /\ (sameWork tx cur
           \/ (cur = zeroTransaction
               /\ exists last, sameWork tx last
                               /\ head (upserts w1) = Some (withState last TxStateFailed)))
       /\ exists w3, watcher i tx (pre ++ CaseTimeout :: post) w = (Value tt, w3)
                     /\ (UniqueID tx ∉ watched w3))
  /\
  (forall cases err w1,
     watchAndIncrement i tx cases w = (Value (Return (Some err)), w1) ->
     expiredAt (ambient i) (now w1) tx = true ->
     exists w2,
       watcher i tx cases w = (Value tt, w2)
       /\ upserts w2 = withState tx TxStateFailed :: upserts w1
       /\ (UniqueID tx ∉ watched w2)
       /\ (accepted i (S (now w1)) (withState tx TxStateFailed) ->
           persistedState w2 (UniqueID tx) = Some TxStateFailed)).
Proof.
  split.
  - intros pre post cur w1 Hpre.
    destruct (watchTurn_timeout i cur w1) as (w2 & r & Hturn & Hu & _ & Hacc).
    assert (Hloop : watchAndIncrement i tx (pre ++ CaseTimeout :: post) w
                    = (Value (Return r), w2)).
    { rewrite watchAndIncrement_app, Hpre. cbn [watchAndIncrement].
      unfold bind at 1. rewrite Hturn. reflexivity. }
    exists w2, r. split; [exact Hloop|]. split; [exact Hu|]. split; [exact Hacc|].
    split; [exact (watchAndIncrement_holds i pre tx cur w w1 Hpre)|].
    exact (watcher_exits i tx _ w w2 r Hloop).
  - intros cases err w1 Hloop Hexp.
    destruct (watcher_after_error i tx cases w w1 err Hloop) as (w2 & Hrun & Hw & Hif).
    rewrite Hexp in Hif. destruct Hif as [Hu Hacc].
    exists w2. repeat split; assumption.
Qed.

(** The spec's scenario, watched through a check, an increase to 80 and
    then the timeout: the loop returns nil, the last write is the record at
    price 80 in state [Failed], and that is what the storage holds. *)
Lemma timeout_persists_failed_witness :
  let i := fixture.incrementor (fixture.accepting 0) fixture.pendingChain
             {[ fixture.alice := fixture.sign ]} 1000 in
  exists w2,
    watchAndIncrement i (fixture.record 40) [CaseCheck; CaseIncrease; CaseTimeout]
      (fixture.holding (fixture.record 40)) = (Value (Return None), w2)
    /\ (State <$> head (upserts w2)) = Some TxStateFailed
    /\ persistedState w2 "tx-1" = Some TxStateFailed.
Proof.
  cbv zeta.
  destruct (timeout_persists_failed
              (fixture.incrementor (fixture.accepting 0) fixture.pendingChain
                 {[ fixture.alice := fixture.sign ]} 1000)
              (fixture.record 40) (fixture.holding (fixture.record 40))) as [Htimeout _].
  destruct (watchAndIncrement
              (fixture.incrementor (fixture.accepting 0) fixture.pendingChain
                 {[ fixture.alice := fixture.sign ]} 1000)
              (fixture.record 40) [CaseCheck; CaseIncrease]
              (fixture.holding (fixture.record 40))) as [o w1] eqn:Hpre.
  assert (Ho : exists cur, o = Value (Continue cur) /\ UniqueID cur = "tx-1").
  { vm_compute in Hpre. injection Hpre as <- _. eexists. split; reflexivity. }
  destruct Ho as (cur & -> & Hid).
  destruct (Htimeout [CaseCheck; CaseIncrease] [] cur w1 Hpre)
    as (w2 & r & Hloop & Hu & Hacc & _).
  destruct (Hacc eq_refl) as [-> Hstored].
  exists w2. split; [exact Hloop|]. rewrite Hu. split; [reflexivity|].
  now rewrite <- Hid.
Defined.

(* ===================================================================== *)
(** ** Terminal states *)
(* ===================================================================== *)

(** What [tryWatch] does: it writes nothing, and the watcher it may start
    is one for the transaction given. *)
Lemma tryWatch_run (i : GasPriceIncremenetor) (tx : Transaction) (w : World) :
  exists w', tryWatch i tx w = (Value tt, w')
             /\ sameRecords w w'
             /\ (started w' = started w \/ started w' = tx :: started w).
Proof.
  unfold tryWatch. go_unfold.
  destruct (bool_decide _).
  - exists w. repeat split. now left.
  - destruct (validate (Opts tx)).
    + destruct (logFn i); eexists; repeat split; now left.
    + eexists. repeat split. now right.
Qed.

(** The poll loop's [process] writes nothing and starts watchers only for
    transactions that are neither [Failed] nor [Succeeded]. *)
Lemma process_skips_terminal (i : GasPriceIncremenetor) (txs : list Transaction) :
  forall w, exists w' new,
    process i txs w = (Value tt, w')
    /\ sameRecords w w'
    /\ started w' = (new ++ started w)%list
    /\ Forall (fun tx => terminal (State tx) = false /\ tx ∈ txs) new.
Proof.
  induction txs as [|tx rest IH]; intros w; cbn [process].
  - exists w, []. repeat split. constructor.
  - assert (Hhead : exists w1,
               match State tx with
               | TxStateFailed | TxStateSucceed => ret tt
               | _ => tryWatch i tx
               end w = (Value tt, w1)
               /\ sameRecords w w1
               /\ (started w1 = started w
                   \/ (started w1 = tx :: started w /\ terminal (State tx) = false))).
    { destruct (State tx) eqn:Hst;
        try (exists w; repeat split; now left);
        destruct (tryWatch_run i tx w) as (w1 & Hrun & Hsame & [Hs | Hs]);
        exists w1; (split; [exact Hrun|]); (split; [exact Hsame|]);
        solve [now left | right; split; [exact Hs | reflexivity]]. }
    destruct Hhead as (w1 & Hrun & (Hs1 & Hu1 & Hb1) & Hstart).
    destruct (IH w1) as (w2 & new & Hrest & (Hs2 & Hu2 & Hb2) & Hnew & Hall).
    unfold bind. rewrite Hrun.
    assert (Hall' : Forall (fun t => terminal (State t) = false /\ t ∈ tx :: rest) new).
    { eapply Forall_impl; [exact Hall|]. intros t [Ht Hin]. split; [exact Ht|].
      now apply list_elem_of_further. }
    destruct Hstart as [Hst | [Hst Hterm]].
    + exists w2, new. split; [exact Hrest|]. split; [repeat split; congruence|].
      split; [now rewrite Hnew, Hst | exact Hall'].
    + exists w2, (new ++ [tx])%list. split; [exact Hrest|]. split; [repeat split; congruence|].
      split; [now rewrite Hnew, Hst, <- app_assoc|].
      apply Forall_app. split; [exact Hall'|]. repeat constructor. exact Hterm.
Qed.

(** The poll loop writes nothing and starts no watcher for a transaction
    that is [Failed] or [Succeeded]. *)
Theorem Run_skips_terminal (i : GasPriceIncremenetor) (cases : list polled) :
  forall w, exists w' new,
    Run i cases w = (Value tt, w')
    /\ sameRecords w w'
    /\ started w' = (new ++ started w)%list
    /\ Forall (fun tx => terminal (State tx) = false) new.
Proof.
  induction cases as [|c rest IH]; intros w; cbn [Run].
  - exists w, []. repeat split. constructor.
  - destruct c.
    + exists w, []. repeat split. constructor.
    + unfold bind at 1. unfold storageToCheck.
      destruct (GetIncrementorTransactionsToCheck _ _ _) as [txs [err|]].
      * unfold bind, ret. destruct (IH (advance w)) as (w' & new & Hrun & Hsame & Hnew & Hall).
        destruct Hsame as (Hs & Hu & Hb). cbn [advance stored upserts broadcasts started] in *.
        exists w', new. repeat split; assumption.
      * destruct (process_skips_terminal i txs (advance w))
          as (w1 & new1 & Hproc & (Hs1 & Hu1 & Hb1) & Hnew1 & Hall1).
        destruct (IH w1) as (w2 & new2 & Hrun & (Hs2 & Hu2 & Hb2) & Hnew2 & Hall2).
        unfold bind. rewrite Hproc. exists w2, (new2 ++ new1)%list.
        split; [exact Hrun|].
        split; [repeat split; cbn [advance stored upserts broadcasts] in *; congruence|].
        split; [rewrite Hnew2, Hnew1; cbn [advance started]; now rewrite app_assoc|].
        apply Forall_app. split; [exact Hall2|].
        eapply Forall_impl; [exact Hall1|]. now intros t [Ht _].
Qed.

(** C2 fails on the code.  The spec's scenario with the transaction
    expiring while it is watched: the first increase raises the price to
    80, the second finds 160 above the ceiling and writes the record as
    [Failed]; the goroutine then finds the transaction expired and writes
    it as [Failed] once more, from the copy it was started with, so that
    the record of a terminal transaction is overwritten and its [LatestTx]
    falls back from the price 80 that was broadcast to the price 40. *)
Theorem terminal_record_rewritten :
  let i := fixture.incrementor (fixture.accepting 0) fixture.pendingChain
             {[ fixture.alice := fixture.sign ]} 4 in
  let w := snd (watcher i (fixture.record 40) [CaseIncrease; CaseIncrease]
                  (fixture.holding (fixture.record 40))) in
  (State <$> upserts w) = [TxStateFailed; TxStateFailed; TxStatePriceIncreased]
  /\ (UniqueID <$> upserts w) = ["tx-1"; "tx-1"; "tx-1"]
  /\ (latestGasPrice <$> upserts w) = [Some 40; Some 80; Some 80]
  /\ ((fun b => types.GasPrice (snd b)) <$> broadcasts w) = [80]
  /\ (latestGasPrice <$> stored w !! "tx-1") = Some (Some 40)
  /\ persistedState w "tx-1" = Some TxStateFailed.
Proof. cbv zeta. repeat split; vm_compute; reflexivity. Qed.

(** C5 fails on the code.  With a signer that refuses to sign and a
    storage that takes the write, the increase turn writes the record as
    [Failed] but does not return: the loop goes round again holding the
    zero transaction, and when the timeout case comes it writes a second
    record, in state [Failed] under the empty identifier. *)
Theorem signing_failure_keeps_looping :
  let i := fixture.incrementor (fixture.accepting 0) fixture.pendingChain
             {[ fixture.alice := fixture.refuse ]} 1000 in
  let w := fixture.holding (fixture.record 40) in
  fst (watchTurn i (fixture.record 40) CaseIncrease w) = Value (Continue zeroTransaction)
  /\ upserts (snd (watchTurn i (fixture.record 40) CaseIncrease w))
     = [withState (fixture.record 40) TxStateFailed]
  /\ fst (watchAndIncrement i (fixture.record 40) [CaseIncrease; CaseTimeout] w)
     = Value (Return None)
  /\ upserts (snd (watchAndIncrement i (fixture.record 40) [CaseIncrease; CaseTimeout] w))
     = [withState zeroTransaction TxStateFailed; withState (fixture.record 40) TxStateFailed]
  /\ persistedState (snd (watchAndIncrement i (fixture.record 40)
                            [CaseIncrease; CaseTimeout] w)) ""
     = Some TxStateFailed.
Proof. cbv zeta. repeat split; vm_compute; reflexivity. Qed.

(** The same with a broadcast that fails: the chain cannot be reached, the
    record is written as [Failed], the loop goes round again. *)
Lemma broadcast_failure_keeps_looping :
  let i := fixture.incrementor (fixture.accepting 0) fixture.unreachable
             {[ fixture.alice := fixture.sign ]} 1000 in
  let w := fixture.holding (fixture.record 40) in
  fst (watchTurn i (fixture.record 40) CaseIncrease w) = Value (Continue zeroTransaction)
  /\ upserts (snd (watchTurn i (fixture.record 40) CaseIncrease w))
     = [withState (fixture.record 40) TxStateFailed].
Proof. cbv zeta. repeat split; vm_compute; reflexivity. Qed.

#[local] Set Warnings "-clear-no-such-hyp".

(* ===================================================================== *)
(** ** The watch set *)
(* ===================================================================== *)

(** The syncer's three operations, keyed by [UniqueID] alone: a marked
    transaction is being watched, and so is any record with the same
    identifier; a removed one is not; marking or removing one identifier
    leaves every other as it was; and removing what was just marked gives
    back a set without the identifier, whether it was there before or
    not. *)
Theorem syncer_mark_remove (tx other : Transaction) (w : World) :
  fst (txBeingWatched tx (snd (txMarkBeingWatched tx w))) = Value true
  /\ fst (txBeingWatched tx (snd (txRemoveWatched tx w))) = Value false
  /\ (UniqueID other = UniqueID tx ->
      fst (txBeingWatched other (snd (txMarkBeingWatched tx w))) = Value true)
  /\ (UniqueID other <> UniqueID tx ->
      fst (txBeingWatched other (snd (txMarkBeingWatched tx w))) = fst (txBeingWatched other w)
      /\ fst (txBeingWatched other (snd (txRemoveWatched tx w))) = fst (txBeingWatched other w))
  /\ watched (snd (txRemoveWatched tx (snd (txMarkBeingWatched tx w))))
     = watched w ∖ {[ UniqueID tx ]}.
Proof.
  unfold txBeingWatched, txMarkBeingWatched, txRemoveWatched. cbn [fst snd watched].
  split; [|split; [|split; [|split]]].
  - f_equal. apply bool_decide_eq_true. set_solver.
  - f_equal. apply bool_decide_eq_false. apply not_watched_after_remove.
  - intros ->. f_equal. apply bool_decide_eq_true. set_solver.
  - intros Hne. split; f_equal; apply bool_decide_ext; set_solver.
  - set_solver.
Qed.

Lemma syncer_mark_remove_witness :
  fst (txBeingWatched (fixture.record 40)
         (snd (txMarkBeingWatched (withState (fixture.record 80) TxStateFailed) emptyWorld)))
  = Value true.
Proof.
  destruct (syncer_mark_remove (withState (fixture.record 80) TxStateFailed)
              (fixture.record 40) emptyWorld) as (_ & _ & Hsame & _).
  apply Hsame. reflexivity.
Defined.

(** What [tryWatch] does, case by case. *)
Lemma tryWatch_cases (i : GasPriceIncremenetor) (tx : Transaction) (w : World) :
  exists w',
    tryWatch i tx w = (Value tt, w')
    /\ sameRecords w w' /\ now w' = now w
    /\ (((UniqueID tx ∈ watched w) /\ w' = w)
        \/ ((UniqueID tx ∉ watched w) /\ validate (Opts tx) <> None
            /\ started w' = started w /\ watched w' = watched w)
        \/ ((UniqueID tx ∉ watched w) /\ validate (Opts tx) = None
            /\ started w' = tx :: started w
            /\ watched w' = {[ UniqueID tx ]} ∪ watched w
            /\ logged w' = logged w)).
Proof.
  unfold tryWatch. go_unfold.
  destruct (decide (UniqueID tx ∈ watched w)) as [Hin | Hnin].
  - rewrite (bool_decide_eq_true_2 _ Hin). exists w. repeat split. now left.
  - rewrite (bool_decide_eq_false_2 _ Hnin).
    destruct (validate (Opts tx)) as [err|].
    + destruct (logFn i); eexists; (split; [reflexivity|]); (split; [repeat split|]);
        (split; [reflexivity|]); right; left; repeat split; (assumption || discriminate).
    + eexists. split; [reflexivity|]. split; [repeat split|]. split; [reflexivity|].
      right. right. repeat split. assumption.
Qed.

(** What [process] does to one entry of the list. *)
Lemma process_head (i : GasPriceIncremenetor) (tx : Transaction) (w : World) :
  exists w',
    match State tx with
    | TxStateFailed | TxStateSucceed => ret tt
    | _ => tryWatch i tx
    end w = (Value tt, w')
    /\ sameRecords w w' /\ now w' = now w
    /\ ((started w' = started w /\ watched w' = watched w)
        \/ ((UniqueID tx ∉ watched w) /\ validate (Opts tx) = None
            /\ terminal (State tx) = false
            /\ started w' = tx :: started w
            /\ watched w' = {[ UniqueID tx ]} ∪ watched w)).
Proof.
  destruct (tryWatch_cases i tx w) as (w' & Hrun & Hsame & Hnow & Hcases).
  assert (Htry : terminal (State tx) = false ->
                 exists w', tryWatch i tx w = (Value tt, w')
                   /\ sameRecords w w' /\ now w' = now w
                   /\ ((started w' = started w /\ watched w' = watched w)
                       \/ ((UniqueID tx ∉ watched w) /\ validate (Opts tx) = None
                           /\ terminal (State tx) = false
                           /\ started w' = tx :: started w
                           /\ watched w' = {[ UniqueID tx ]} ∪ watched w))).
  { intros Hterm. exists w'. split; [exact Hrun|]. split; [exact Hsame|].
    split; [exact Hnow|].
    destruct Hcases as [[_ ->] | [(_ & _ & Hs & Hw) | (Hnin & Hv & Hs & Hw & _)]].
    - left. split; reflexivity.
    - left. split; assumption.
    - right. repeat split; assumption. }
  destruct (State tx) eqn:Hst; try (apply Htry; reflexivity);
    exists w; repeat split; left; split; reflexivity.
Qed.


(** A record whose opts do not validate is never watched and never
    written: a pass over such records leaves the storage, the watch set and
    the list of watchers as they were. *)
Theorem process_invalid_opts_untouched (i : GasPriceIncremenetor) (txs : list Transaction) :
  Forall (fun tx => validate (Opts tx) <> None) txs ->
  forall w, exists w',
    process i txs w = (Value tt, w')
    /\ sameRecords w w' /\ started w' = started w /\ watched w' = watched w.
Proof.
  induction 1 as [|tx rest Hbad _ IH]; intros w; cbn [process].
  - exists w. repeat split.
  - destruct (process_head i tx w) as (w1 & Hhead & (Hs & Hu & Hb) & _ & Hcase).
    destruct Hcase as [[Hs1 Hw1] | (_ & Hv & _)]; [|contradiction].
    destruct (IH w1) as (w2 & Hrest & (Hs2 & Hu2 & Hb2) & Hst2 & Hw2).
    unfold bind. rewrite Hhead. exists w2. split; [exact Hrest|].
    repeat split; congruence.
Qed.

Lemma process_invalid_opts_untouched_witness :
  exists w',
    process (fixture.incrementor (fixture.accepting 0) fixture.pendingChain ∅ 0)
      [mkTx "tx-9" 1 "" TxStatePending zeroOpts (types.Encoded (fixture.payment 40))]
      emptyWorld = (Value tt, w')
    /\ started w' = [] /\ watched w' = ∅.
Proof.
  destruct (process_invalid_opts_untouched
              (fixture.incrementor (fixture.accepting 0) fixture.pendingChain ∅ 0)
              [mkTx "tx-9" 1 "" TxStatePending zeroOpts (types.Encoded (fixture.payment 40))])
    with (w := emptyWorld) as (w' & Hrun & _ & Hs & Hw).
  - repeat constructor. vm_compute. discriminate.
  - exists w'. repeat split; assumption.
Defined.

(* ===================================================================== *)
(** ** The watcher: the cases the claims leave out *)
(* ===================================================================== *)

(** Once the loop has returned, the cases that follow are never taken. *)
Lemma watchAndIncrement_returned (i : GasPriceIncremenetor) (tx : Transaction)
    (pre post : list selected) (w w1 : World) (r : option error) :
  watchAndIncrement i tx pre w = (Value (Return r), w1) ->
  watchAndIncrement i tx (pre ++ post) w = (Value (Return r), w1).
Proof. intros Hpre. now rewrite watchAndIncrement_app, Hpre. Qed.

(** The stop case.  Whatever the loop was doing, when its select takes the
    stop case it returns nil at once: nothing is written, broadcast or
    logged, no outside call is made, whatever cases would follow are never
    taken, and the goroutine ends with the transaction out of the watch
    set. *)
Theorem stop_case_ends_watcher (i : GasPriceIncremenetor) (tx cur : Transaction)
    (pre post : list selected) (w w1 : World) :
  watchAndIncrement i tx pre w = (Value (Continue cur), w1) ->
  watchAndIncrement i tx (pre ++ CaseStop :: post) w = (Value (Return None), w1)
  /\ exists w2,
       watcher i tx (pre ++ CaseStop :: post) w = (Value tt, w2)
       /\ sameRecords w1 w2 /\ logged w2 = logged w1 /\ now w2 = now w1
       /\ watched w2 = watched w1 ∖ {[ UniqueID tx ]}.
Proof.
  intros Hpre.
  assert (Hloop : watchAndIncrement i tx (pre ++ CaseStop :: post) w
                  = (Value (Return None), w1)).
  { rewrite watchAndIncrement_app, Hpre. reflexivity. }
  split; [exact Hloop|].
  unfold watcher. unfold bind. rewrite Hloop. unfold txRemoveWatched.
  eexists. split; [reflexivity|]. repeat split.
Qed.

Lemma stop_case_ends_watcher_witness :
  watchAndIncrement
    (fixture.incrementor (fixture.accepting 0) fixture.pendingChain
       {[ fixture.alice := fixture.sign ]} 1000)
    (fixture.record 40) ([CaseCheck] ++ CaseStop :: [CaseTimeout])
    (fixture.holding (fixture.record 40))
  = (Value (Return None), advance (fixture.holding (fixture.record 40))).
Proof.
  apply (stop_case_ends_watcher
           (fixture.incrementor (fixture.accepting 0) fixture.pendingChain
              {[ fixture.alice := fixture.sign ]} 1000)
           (fixture.record 40) (fixture.record 40) [CaseCheck] [CaseTimeout]
           (fixture.holding (fixture.record 40))
           (advance (fixture.holding (fixture.record 40)))).
  vm_compute. reflexivity.
Defined.

(** What [transactionSuccess] does: one write, stored when accepted. *)
Lemma transactionSuccess_run (i : GasPriceIncremenetor) (tx : Transaction) (w : World) :
  exists w' r,
    transactionSuccess i tx w = (Value r, w')
    /\ upserts w' = withState tx TxStateSucceed :: upserts w
    /\ broadcasts w' = broadcasts w
    /\ now w' = S (now w)
    /\ (accepted i (now w) (withState tx TxStateSucceed) ->
        r = None /\ stored w' !! UniqueID tx = Some (withState tx TxStateSucceed))
    /\ (forall e, UpsertIncrementorTransaction (storage i) (now w)
                    (withState tx TxStateSucceed) = Some e ->
        r = Some (errors.Errorf "failed marking transaction succeed: " e)
        /\ stored w' = stored w).
Proof.
  unfold transactionSuccess, accepted. go_unfold.
  destruct (UpsertIncrementorTransaction _ _ _) as [e|] eqn:Hup;
    eexists _, _; (split; [reflexivity|]); cbn [upserts broadcasts now stored];
    repeat (split; [reflexivity|]).
  - split; [intros [=] | intros e' [= <-]; split; reflexivity].
  - split; [intros _ | intros e' [=]].
    split; [reflexivity|].
    change (UniqueID tx) with (UniqueID (withState tx TxStateSucceed)) at 1.
    apply lookup_insert_eq.
Qed.

(** The status query comes back with a successful receipt. *)
Lemma getTxStatus_succeeds (i : GasPriceIncremenetor) (tx : Transaction) (w : World)
    (org : types.Transaction) (rcp : types.Receipt) :
  getLatestTx tx = Ok org ->
  TransactionByHash (bc i) (now w) (ChainID tx) (types.TxHash org) = (false, None) ->
  TransactionReceipt (bc i) (S (now w)) (ChainID tx) (types.TxHash org) = Ok rcp ->
  types.Status rcp = types.ReceiptStatusSuccessful ->
  getTxStatus i tx w = (Value (StatusSucceeded, None), advance (advance w)).
Proof.
  intros Horg Hby Hrcp Hst. unfold getTxStatus. rewrite Horg.
  unfold bind at 1. unfold bcTransactionByHash. rewrite Hby.
  unfold bind at 1. unfold bcTransactionReceipt. cbn [advance now]. rewrite Hrcp.
  unfold bcTxStatusFromReceipt. rewrite Hst. reflexivity.
Qed.

(** A check turn that finds the transaction mined with a successful
    receipt writes it once, in state [Succeed] with its [LatestTx] and opts
    untouched, broadcasts nothing and returns: with nil when the storage
    takes the write, which is then the stored record, and with the
    storage's error, wrapped, when it does not. *)
Theorem check_success_persists_succeed (i : GasPriceIncremenetor) (tx : Transaction)
    (w : World) (org : types.Transaction) (rcp : types.Receipt) :
  getLatestTx tx = Ok org ->
  TransactionByHash (bc i) (now w) (ChainID tx) (types.TxHash org) = (false, None) ->
  TransactionReceipt (bc i) (S (now w)) (ChainID tx) (types.TxHash org) = Ok rcp ->
  types.Status rcp = types.ReceiptStatusSuccessful ->
  exists w' r,
    watchTurn i tx CaseCheck w = (Value (Return r), w')
    /\ upserts w' = withState tx TxStateSucceed :: upserts w
    /\ broadcasts w' = broadcasts w
    /\ (accepted i (S (S (now w))) (withState tx TxStateSucceed) ->
        r = None /\ stored w' !! UniqueID tx = Some (withState tx TxStateSucceed))
    /\ (forall e, UpsertIncrementorTransaction (storage i) (S (S (now w)))
                    (withState tx TxStateSucceed) = Some e ->
        r = Some (errors.Errorf "failed marking transaction succeed: " e)
        /\ stored w' = stored w).
Proof.
  intros Horg Hby Hrcp Hst.
  destruct (transactionSuccess_run i tx (advance (advance w)))
    as (w' & r & Hrun & Hu & Hb & _ & Hacc & Hrej).
  exists w', r. unfold watchTurn. unfold bind at 1.
  rewrite (getTxStatus_succeeds i tx w org rcp Horg Hby Hrcp Hst).
  unfold bind, ret. rewrite Hrun.
  split; [reflexivity|]. split; [exact Hu|]. split; [exact Hb|].
  split; [exact Hacc | exact Hrej].
Qed.

Lemma check_success_persists_succeed_witness :
  exists w',
    watchTurn (fixture.incrementor (fixture.accepting 0) (fixture.minedChain 1)
                 {[ fixture.alice := fixture.sign ]} 1000)
      (fixture.record 40) CaseCheck (fixture.holding (fixture.record 40))
    = (Value (Return None), w')
    /\ persistedState w' "tx-1" = Some TxStateSucceed.
Proof.
  destruct (check_success_persists_succeed
              (fixture.incrementor (fixture.accepting 0) (fixture.minedChain 1)
                 {[ fixture.alice := fixture.sign ]} 1000)
              (fixture.record 40) (fixture.holding (fixture.record 40))
              (fixture.payment 40) (types.mkReceipt 1) eq_refl eq_refl eq_refl eq_refl)
    as (w' & r & Hturn & _ & _ & Hacc & _).
  destruct (Hacc eq_refl) as [-> Hst].
  exists w'. split; [exact Hturn|]. unfold persistedState.
  change "tx-1" with (UniqueID (fixture.record 40)). now rewrite Hst.
Defined.

(** A check turn on a transaction the chain still reports as pending asks
    for nothing more: the receipt is not requested (one outside call is
    made, not two), nothing is written, broadcast or logged, and the loop
    goes round again with the same transaction. *)
Theorem check_pending_keeps_watching (i : GasPriceIncremenetor) (tx : Transaction)
    (w : World) (org : types.Transaction) :
  getLatestTx tx = Ok org ->
  TransactionByHash (bc i) (now w) (ChainID tx) (types.TxHash org) = (true, None) ->
  watchTurn i tx CaseCheck w = (Value (Continue tx), advance w)
  /\ fst (getTxStatus i tx w) = Value (StatusPending, None).
Proof.
  intros Horg Hby.
  assert (Hget : getTxStatus i tx w = (Value (StatusPending, None), advance w)).
  { unfold getTxStatus. rewrite Horg. unfold bind at 1. unfold bcTransactionByHash.
    rewrite Hby. reflexivity. }
  split; [|now rewrite Hget].
  unfold watchTurn. unfold bind at 1. rewrite Hget. reflexivity.
Qed.

Lemma check_pending_keeps_watching_witness :
  watchTurn (fixture.incrementor (fixture.accepting 0) fixture.pendingChain
               {[ fixture.alice := fixture.sign ]} 1000)
    (fixture.record 40) CaseCheck emptyWorld
  = (Value (Continue (fixture.record 40)), advance emptyWorld).
Proof.
  apply (check_pending_keeps_watching
           (fixture.incrementor (fixture.accepting 0) fixture.pendingChain
              {[ fixture.alice := fixture.sign ]} 1000)
           (fixture.record 40) emptyWorld (fixture.payment 40)); reflexivity.
Defined.

(* ===================================================================== *)
(** ** What the watcher writes *)
(* ===================================================================== *)

(** The writes of an increase, for any property of records: the record in
    state [Failed], or, when its [LatestTx] decodes, the record in state
    [PriceIncreased] with a new [LatestTx]; and what it hands back is the
    zero transaction or that raised record. *)
Lemma effects_increaseGasPrice_any (P : Transaction -> Prop) (i : GasPriceIncremenetor)
    (tx : Transaction) :
  P (withState tx TxStateFailed) ->
  (forall org blob, getLatestTx tx = Ok org ->
                    P (withLatestTx (withState tx TxStatePriceIncreased) blob)) ->
  effects P (fun _ => True)
    (fun r => fst r = zeroTransaction
              \/ exists org blob, getLatestTx tx = Ok org
                   /\ fst r = withLatestTx (withState tx TxStatePriceIncreased) blob)
    (increaseGasPrice i tx).
Proof.
  intros Hfail Hraise. unfold increaseGasPrice.
  destruct (getLatestTx tx) as [org|e] eqn:Horg; [|apply effects_ret; now left].
  destruct (newGasPriceOf _ _) as [newGasPrice|]; [|apply effects_panic].
  destruct (MaxPrice (Opts tx)) as [mp|]; [|apply effects_panic].
  destruct (mp <? newGasPrice).
  - eapply effects_bind; [apply effects_transactionFailed, Hfail|].
    intros [e|] _; apply effects_ret; now left.
  - eapply effects_bind; [apply effects_signAndSend; trivial|].
    intros [newTx|e] _.
    + unfold transactionPriceIncreased, types.MarshalJSON.
      eapply effects_bind; [apply effects_storageUpsert, (Hraise org), eq_refl|].
      intros [e|] _; apply effects_ret; [now left|]. right. now exists org, (types.Encoded newTx).
    + eapply effects_bind; [apply effects_transactionFailed, Hfail|].
      intros err _. apply effects_ret. now left.
Qed.

(** The status query never writes, and reports [StatusSucceeded] only for
    a transaction whose [LatestTx] decodes. *)
Lemma effects_getTxStatus_decoded (P : Transaction -> Prop) (i : GasPriceIncremenetor)
    (tx : Transaction) :
  effects P (fun _ => True)
    (fun r => fst r = StatusSucceeded -> exists org, getLatestTx tx = Ok org)
    (getTxStatus i tx).
Proof.
  intros w. destruct (effects_getTxStatus P (fun _ => True) i tx w) as (Hu & Hb & _).
  split; [exact Hu|]. split; [exact Hb|].
  intros [status err] Hrun Hst. cbn [fst] in Hst. subst status.
  unfold getTxStatus in Hrun. destruct (getLatestTx tx) as [org|e]; [eauto|].
  discriminate Hrun.
Qed.

(** The writes of a run of the loop, for any property [P] of records and
    any property [J] of the transaction held that the zero transaction has
    and a raised record keeps. *)
Lemma effects_watchAndIncrement_any (P J : Transaction -> Prop) (i : GasPriceIncremenetor) :
  J zeroTransaction ->
  (forall cur, J cur -> P (withState cur TxStateFailed)) ->
  (forall cur org, J cur -> getLatestTx cur = Ok org -> P (withState cur TxStateSucceed)) ->
  (forall cur org blob, J cur -> getLatestTx cur = Ok org ->
     P (withLatestTx (withState cur TxStatePriceIncreased) blob)
     /\ J (withLatestTx (withState cur TxStatePriceIncreased) blob)) ->
  forall cases cur, J cur ->
    effects P (fun _ => True)
      (fun t => match t with Continue c => J c | Return _ => True end)
      (watchAndIncrement i cur cases).
Proof.
  intros Hzero Hfail Hsucc Hraise.
  induction cases as [|c rest IH]; intros cur Hcur; cbn [watchAndIncrement].
  { apply effects_ret. exact Hcur. }
  assert (Hfailed : effects P (fun _ => True)
                      (fun t => match t with Continue c => J c | Return _ => True end)
                      (let* r := transactionFailed i cur in ret (Return r))).
  { eapply effects_bind; [apply effects_transactionFailed, Hfail, Hcur|].
    intros r _. apply effects_ret. exact I. }
  eapply effects_bind with
    (Q := fun t => match t with Continue c => J c | Return _ => True end).
  - destruct c; cbn [watchTurn].
    + apply effects_ret. exact I.
    + eapply effects_bind; [apply effects_getTxStatus_decoded|].
      intros [status [e|]] Hdec.
      * destruct (negb _); [apply effects_ret; exact I|].
        eapply effects_bind; [apply effects_log | intros _ _; exact Hfailed].
      * destruct status; try (apply effects_ret; exact Hcur).
        destruct (Hdec eq_refl) as [org Horg].
        eapply effects_bind;
          [apply effects_transactionSuccess, (Hsucc cur org Hcur Horg)|].
        intros r _. apply effects_ret. exact I.
    + eapply effects_bind.
      * apply effects_increaseGasPrice_any.
        -- apply Hfail, Hcur.
        -- intros org blob Horg. apply (Hraise cur org blob Hcur Horg).
      * intros [newTx [e|]] Hnew.
        -- destruct (negb _); [apply effects_ret; exact I|].
           eapply effects_bind; [apply effects_log | intros _ _; exact Hfailed].
        -- apply effects_ret. cbn [fst] in Hnew.
           destruct Hnew as [-> | (org & blob & Horg & ->)]; [exact Hzero|].
           apply (Hraise cur org blob Hcur Horg).
    + exact Hfailed.
  - intros [tx'|err] Ht.
    + apply IH. exact Ht.
    + apply effects_ret. exact I.
Qed.

(** Whatever cases its selects take, the watcher only ever rewrites the
    state and the [LatestTx] of the record it watches: every record it
    writes has the identifier, chain, sender and opts of the watched
    transaction (the one exception is the zero record in state [Failed],
    written by a timeout that follows a failed signing or broadcast); a
    record it writes as [PriceIncreased] or [Succeed] is never such a zero
    record; and it never writes a record in the state [Pending] or in a
    state it does not name. *)
Theorem watcher_writes_same_work (i : GasPriceIncremenetor) (tx : Transaction)
    (cases : list selected) (w : World) :
  exists new,
    upserts (snd (watchAndIncrement i tx cases w)) = (new ++ upserts w)%list
    /\ Forall (fun rec =>
                 (sameWork tx rec
                  /\ (State rec = TxStateFailed \/ State rec = TxStateSucceed
                      \/ State rec = TxStatePriceIncreased))
                 \/ rec = withState zeroTransaction TxStateFailed) new.
Proof.
  destruct (effects_watchAndIncrement_any
              (fun rec =>
                 (sameWork tx rec
                  /\ (State rec = TxStateFailed \/ State rec = TxStateSucceed
                      \/ State rec = TxStatePriceIncreased))
                 \/ rec = withState zeroTransaction TxStateFailed)
              (fun cur => sameWork tx cur \/ cur = zeroTransaction) i)
    with (cases := cases) (cur := tx) (w := w) as [Hnew _].
  - now right.
  - intros cur [Hcur | ->]; [left | now right].
    split; [exact Hcur | now left].
  - intros cur org [Hcur | ->] Horg; [|discriminate Horg].
    left. split; [exact Hcur | right; now left].
  - intros cur org blob [Hcur | ->] Horg; [|discriminate Horg].
    split; [left; split; [exact Hcur | right; now right] | left; exact Hcur].
  - left. apply sameWork_refl.
  - exact Hnew.
Qed.

(** The status query reports [StatusSucceeded] only when the chain said
    the transaction is not pending and returned a receipt with the
    successful status, both without error. *)
Lemma getTxStatus_succeeded_only_if (i : GasPriceIncremenetor) (tx : Transaction)
    (w w1 : World) (err : option error) :
  getTxStatus i tx w = (Value (StatusSucceeded, err), w1) ->
  err = None
  /\ exists org rcp,
       getLatestTx tx = Ok org
       /\ TransactionByHash (bc i) (now w) (ChainID tx) (types.TxHash org) = (false, None)
       /\ TransactionReceipt (bc i) (S (now w)) (ChainID tx) (types.TxHash org) = Ok rcp
       /\ types.Status rcp = types.ReceiptStatusSuccessful.
Proof.
  unfold getTxStatus. destruct (getLatestTx tx) as [org|e]; [|intros [=]].
  unfold bind at 1. unfold bcTransactionByHash.
  destruct (TransactionByHash _ _ _ _) as [pending [e|]] eqn:Hby; [intros [=]|].
  destruct pending; [intros [=]|].
  unfold bind at 1. unfold bcTransactionReceipt. cbn [advance now].
  destruct (TransactionReceipt _ _ _ _) as [rcp|e] eqn:Hrcp; [|intros [=]].
  unfold bcTxStatusFromReceipt.
  destruct (N.eqb_spec (types.Status rcp) types.ReceiptStatusSuccessful) as [Hst|Hst].
  - intros [= <- _]. split; [reflexivity|]. now exists org, rcp.
  - destruct (N.eqb _ _); [intros [=]|]. unfold bind, ret, log.
    destruct (logFn i); intros [=].
Qed.

(** The watcher never records success on its own account: a turn of the
    loop writes a record in state [Succeed] only when it is a check turn on
    which the chain reported the transaction as not pending and returned a
    receipt with the successful status. *)
Theorem succeed_only_on_successful_receipt (i : GasPriceIncremenetor) (tx : Transaction)
    (c : selected) (w : World) :
  (exists new,
     upserts (snd (watchTurn i tx c w)) = (new ++ upserts w)%list
     /\ Forall (fun rec => State rec <> TxStateSucceed) new)
  \/ (c = CaseCheck
      /\ exists org rcp,
           getLatestTx tx = Ok org
           /\ TransactionByHash (bc i) (now w) (ChainID tx) (types.TxHash org) = (false, None)
           /\ TransactionReceipt (bc i) (S (now w)) (ChainID tx) (types.TxHash org) = Ok rcp
           /\ types.Status rcp = types.ReceiptStatusSuccessful).
Proof.
  set (P := fun rec : Transaction => State rec <> TxStateSucceed).
  assert (Hfailed : forall cur, effects P (fun _ => True) (fun _ : turn => True)
                                  (let* r := transactionFailed i cur in ret (Return r))).
  { intros cur. eapply effects_bind; [apply effects_transactionFailed; discriminate|].
    intros r _. apply effects_ret. exact I. }
  assert (Hlogfail : forall cur e, effects P (fun _ => True) (fun _ : turn => True)
                       (let* _ := log i cur e in
                        let* r := transactionFailed i cur in ret (Return r))).
  { intros cur e. eapply effects_bind; [apply effects_log | intros _ _; apply Hfailed]. }
  destruct c.
  - left. exists []. split; [reflexivity | constructor].
  - cbn [watchTurn]. unfold bind at 1.
    destruct (effects_getTxStatus P (fun _ => True) i tx w) as ((new0 & Hu0 & Hn0) & _).
    destruct (getTxStatus i tx w) as [[[status [e|]]|] w1] eqn:Hget; cbn [snd] in Hu0.
    + left. destruct (negb _).
      * exists new0. split; assumption.
      * destruct (Hlogfail tx
                    (errors.Errorf "received unhandleable receipt error, marking tx as failed: " e)
                    w1) as ((new & Hu & Hn) & _).
        exists (new ++ new0)%list. split; [now rewrite Hu, Hu0, app_assoc|].
        apply Forall_app. split; assumption.
    + destruct status.
      * left. exists new0. split; assumption.
      * left. exists new0. split; assumption.
      * right. split; [reflexivity|].
        apply (getTxStatus_succeeded_only_if i tx w w1 None Hget).
    + left. exists new0. split; assumption.
  - left. cbn [watchTurn].
    assert (Heff : effects P (fun _ => True) (fun _ : turn => True)
                     (watchTurn i tx CaseIncrease)).
    { cbn [watchTurn]. eapply effects_bind.
      - apply effects_increaseGasPrice_any; [discriminate | intros; discriminate].
      - intros [newTx [e|]] _; [|apply effects_ret; exact I].
        destruct (negb _); [apply effects_ret; exact I | apply Hlogfail]. }
    destruct (Heff w) as (Hnew & _). exact Hnew.
  - left. destruct (Hfailed tx w) as (Hnew & _). exact Hnew.
Qed.

(** The wrapper [getTxStatus] and [increaseGasPrice] put around a decoding
    error is not one the classification marks. *)
Lemma decode_error_not_unhandleable (tx : Transaction) (e : error) (prefix : string) :
  getLatestTx tx = Err e ->
  isBlockchainErrorUnhandleable e = false
  /\ isBlockchainErrorUnhandleable (errors.Errorf prefix e) = false.
Proof.
  unfold getLatestTx, types.UnmarshalJSON. destruct (LatestTx tx); [discriminate|].
  intros [= <-]. split; reflexivity.
Qed.

(** A record whose [LatestTx] does not decode is never taken to the chain:
    a check turn and an increase turn both return the decoding error
    (wrapped, on the check turn) without any outside call, write, broadcast
    or log, and the timeout case still writes it as [Failed]. *)
Theorem undecodable_LatestTx_returns_error (i : GasPriceIncremenetor) (tx : Transaction)
    (w : World) (e : error) :
  getLatestTx tx = Err e ->
  watchTurn i tx CaseCheck w
  = (Value (Return (Some (errors.Errorf "can't get tx status, malformed internal tx object: "
                            e))), w)
  /\ watchTurn i tx CaseIncrease w = (Value (Return (Some e)), w)
  /\ upserts (snd (watchTurn i tx CaseTimeout w)) = withState tx TxStateFailed :: upserts w.
Proof.
  intros Hdec.
  destruct (decode_error_not_unhandleable tx e
              "can't get tx status, malformed internal tx object: " Hdec) as [He Hwrapped].
  split; [|split].
  - unfold watchTurn, getTxStatus. rewrite Hdec. unfold bind at 1. unfold ret at 1.
    rewrite Hwrapped. reflexivity.
  - unfold watchTurn, increaseGasPrice. rewrite Hdec. unfold bind at 1. unfold ret at 1.
    rewrite He. reflexivity.
  - destruct (watchTurn_timeout i tx w) as (w' & r & -> & Hu & _). exact Hu.
Qed.

Lemma undecodable_LatestTx_returns_error_witness :
  watchTurn (fixture.incrementor (fixture.accepting 0) fixture.pendingChain
               {[ fixture.alice := fixture.sign ]} 1000)
    zeroTransaction CaseIncrease emptyWorld
  = (Value (Return (Some (errors.New "invalid transaction JSON"))), emptyWorld).
Proof.
  apply (undecodable_LatestTx_returns_error
           (fixture.incrementor (fixture.accepting 0) fixture.pendingChain
              {[ fixture.alice := fixture.sign ]} 1000)
           zeroTransaction emptyWorld (errors.New "invalid transaction JSON")).
  reflexivity.
Defined.

(** The watch set does not outlive the watcher: once the loop has
    returned, with an error or without, the goroutine ends with the
    transaction unmarked, so that the next [tryWatch] for the same
    transaction starts a watcher again. *)
Theorem rewatch_after_return (i : GasPriceIncremenetor) (tx : Transaction)
    (cases : list selected) (w w1 : World) (r : option error) :
  watchAndIncrement i tx cases w = (Value (Return r), w1) ->
  validate (Opts tx) = None ->
  exists w2 w3,
    watcher i tx cases w = (Value tt, w2)
    /\ (UniqueID tx ∉ watched w2)
    /\ tryWatch i tx w2 = (Value tt, w3)
    /\ started w3 = tx :: started w2
    /\ (UniqueID tx ∈ watched w3).
Proof.
  intros Hloop Hvalid.
  destruct (watcher_exits i tx cases w w1 r Hloop) as (w2 & Hrun & Hnin).
  destruct (tryWatch_cases i tx w2) as (w3 & Htry & _ & _ & Hcases).
  exists w2, w3. split; [exact Hrun|]. split; [exact Hnin|]. split; [exact Htry|].
  destruct Hcases as [[Hin _] | [(_ & Hbad & _) | (_ & _ & Hs & Hw & _)]].
  - contradiction.
  - contradiction.
  - split; [exact Hs|]. rewrite Hw. set_solver.
Qed.

Lemma rewatch_after_return_witness :
  exists w2 w3,
    watcher (fixture.incrementor (fixture.accepting 0) fixture.unreachable
               {[ fixture.alice := fixture.sign ]} 1000)
      (fixture.record 40) [CaseCheck] emptyWorld = (Value tt, w2)
    /\ tryWatch (fixture.incrementor (fixture.accepting 0) fixture.unreachable
                   {[ fixture.alice := fixture.sign ]} 1000)
         (fixture.record 40) w2 = (Value tt, w3)
    /\ started w3 = fixture.record 40 :: started w2.
Proof.
  destruct (rewatch_after_return
              (fixture.incrementor (fixture.accepting 0) fixture.unreachable
                 {[ fixture.alice := fixture.sign ]} 1000)
              (fixture.record 40) [CaseCheck] emptyWorld
              (snd (watchAndIncrement
                      (fixture.incrementor (fixture.accepting 0) fixture.unreachable
                         {[ fixture.alice := fixture.sign ]} 1000)
                      (fixture.record 40) [CaseCheck] emptyWorld))
              (Some (errors.Errorf "failed to get transaction by hash: "
                       (errors.New "connection refused"))))
    as (w2 & w3 & Hrun & _ & Htry & Hs & _).
  - vm_compute. reflexivity.
  - reflexivity.
  - exists w2, w3. repeat split; assumption.
Defined.

(* ===================================================================== *)
(** ** The new price never falls *)
(* ===================================================================== *)

Lemma float64_gt_one_finite (m e : Z) :
  float64_gt_one (Finite m e) = true ->
  1 <= m /\ (e < 0 -> 2 ^ (- e) < m).
Proof.
  cbn [float64_gt_one]. destruct (Z.leb_spec 0 e) as [He | He]; intros H.
  - apply Z.ltb_lt in H. split; [|lia].
    assert (0 < 2 ^ e) by (apply Z.pow_pos_nonneg; lia). nia.
  - apply Z.ltb_lt in H. split; [|intros _; exact H].
    assert (0 < 2 ^ (- e)) by (apply Z.pow_pos_nonneg; lia). lia.
Qed.

Lemma lt_pow2_BitLen (p : Z) : 0 <= p -> p < 2 ^ big.BitLen p.
Proof.
  intros Hp. unfold big.BitLen. rewrite (Z.abs_eq p Hp).
  destruct (Z.eqb_spec p 0) as [-> | Hne]; [reflexivity|].
  replace (Z.log2 p + 1) with (Z.succ (Z.log2 p)) by lia.
  apply Z.log2_spec. lia.
Qed.

Lemma pow2_BitLen_le (a : Z) : 0 < a -> 2 ^ (big.BitLen a - 1) <= a.
Proof.
  intros Ha. unfold big.BitLen. rewrite (Z.abs_eq a) by lia.
  destruct (Z.eqb_spec a 0); [lia|].
  replace (Z.log2 a + 1 - 1) with (Z.log2 a) by lia.
  apply Z.log2_spec. lia.
Qed.

(** What is left of the product after its low [sh] bits are cut is at
    least [2^(prec-1)]. *)
Lemma shiftr_top (a prec : Z) :
  0 < a -> 0 < prec -> prec < big.BitLen a ->
  2 ^ (prec - 1) <= Z.shiftr a (big.BitLen a - prec).
Proof.
  intros Ha Hprec Hlong.
  rewrite Z.shiftr_div_pow2 by lia.
  apply Z.div_le_lower_bound; [apply Z.pow_pos_nonneg; lia|].
  rewrite <- Z.pow_add_r by lia.
  replace (big.BitLen a - prec + (prec - 1)) with (big.BitLen a - 1) by lia.
  now apply pow2_BitLen_le.
Qed.

(** The multiplier being greater than one and the price not negative, the
    new price [increaseGasPrice] computes is never below the current one,
    rounding and truncation included. *)
Theorem newGasPriceOf_never_falls (m e p newPrice : Z) :
  float64_gt_one (Finite m e) = true ->
  0 <= p ->
  newGasPriceOf (Finite m e) p = Some newPrice ->
  p <= newPrice.
Proof.
  intros Hgt Hp. destruct (float64_gt_one_finite m e Hgt) as [Hm Hfrac].
  rewrite newGasPriceOf_finite. unfold big.round. cbv zeta.
  set (prec := Z.max 53 (Z.max (big.BitLen p) 64)).
  assert (Hprec : 64 <= prec /\ big.BitLen p <= prec) by (unfold prec; lia).
  assert (HP : p <= m * p) by nia.
  rewrite (Z.abs_eq (m * p)) by lia.
  assert (Hquot : forall d, 0 < d -> d * p <= m * p -> p <= Z.quot (m * p) d).
  { intros d Hd Hle. rewrite Z.quot_div_nonneg by lia.
    apply Z.div_le_lower_bound; lia. }
  destruct (Z.leb_spec (big.BitLen (m * p)) prec) as [Hfit | Hlong]; cbn [big.Int].
  - destruct (Z.leb_spec 0 e) as [He | He]; intros [= <-].
    + assert (0 < 2 ^ e) by (apply Z.pow_pos_nonneg; lia). nia.
    + apply Hquot; [apply Z.pow_pos_nonneg; lia|]. specialize (Hfrac He). nia.
  - set (sh := big.BitLen (m * p) - prec) in *.
    set (q := Z.shiftr (m * p) sh).
    assert (Hpos : 0 < m * p).
    { destruct (Z.eq_dec (m * p) 0) as [H0|]; [|lia].
      rewrite H0 in Hlong. change (big.BitLen 0) with 0 in Hlong. lia. }
    assert (Hq : 2 ^ (prec - 1) <= q) by (apply shiftr_top; lia).
    assert (Hsgn : Z.sgn (m * p) = 1) by (apply Z.sgn_pos; lia).
    rewrite Hsgn, Z.mul_1_l.
    match goal with
    | |- context [if ?c then q + 1 else q] => set (q' := if c then q + 1 else q)
    end.
    assert (Hq' : q <= q') by (unfold q'; destruct (_ || _); lia).
    assert (Hpp : p < 2 ^ prec).
    { eapply Z.lt_le_trans; [apply lt_pow2_BitLen, Hp|]. apply Z.pow_le_mono_r; lia. }
    assert (Hsh : 0 < sh) by (unfold sh; lia).
    assert (Hqdiv : q = m * p / 2 ^ sh) by (unfold q; apply Z.shiftr_div_pow2; lia).
    assert (Hlow : e + sh <= 0 -> 2 ^ (- (e + sh)) * p <= q).
    { intros Hle. rewrite Hqdiv. apply Z.div_le_lower_bound; [apply Z.pow_pos_nonneg; lia|].
      rewrite Z.mul_assoc, <- Z.pow_add_r by lia.
      replace (sh + - (e + sh)) with (- e) by lia.
      assert (He : e < 0) by lia. specialize (Hfrac He). nia. }
    destruct (Z.leb_spec 0 (e + sh)) as [Hes | Hes]; intros [= <-].
    + destruct (Z.eq_dec (e + sh) 0) as [H0 | Hne].
      * rewrite H0, Z.pow_0_r, Z.mul_1_r. specialize (Hlow ltac:(lia)).
        rewrite H0 in Hlow. cbn in Hlow. lia.
      * assert (2 <= 2 ^ (e + sh)).
        { change 2 with (2 ^ 1) at 1. apply Z.pow_le_mono_r; lia. }
        assert (2 ^ prec = 2 * 2 ^ (prec - 1)).
        { rewrite <- Z.pow_succ_r by lia. f_equal. lia. }
        nia.
    + assert (Hd : 0 < 2 ^ (- (e + sh))) by (apply Z.pow_pos_nonneg; lia).
      specialize (Hlow ltac:(lia)).
      rewrite Z.quot_div_nonneg by lia.
      apply Z.div_le_lower_bound; [lia|]. nia.
Qed.

(** The multiplier 1.1 (the double nearest to it) on a price of one gwei
    gives 1.1 gwei. *)
Lemma newGasPriceOf_never_falls_witness :
  1000000000 <= 1100000000
  /\ newGasPriceOf (Finite 4953959590107546 (-52)) 1000000000 = Some 1100000000.
Proof.
  split; [|vm_compute; reflexivity].
  apply (newGasPriceOf_never_falls 4953959590107546 (-52) 1000000000 1100000000).
  - vm_compute. reflexivity.
  - lia.
  - vm_compute. reflexivity.
Defined.

(* ===================================================================== *)
(** ** An increase that reaches the chain *)
(* ===================================================================== *)

Lemma increaseGasPrice_signed (i : GasPriceIncremenetor) (tx : Transaction) (w : World)
    (org signed : types.Transaction) (newPrice : Z) :
  signsIncrease i tx w org newPrice signed ->
  SendTransaction (bc i) (S (now w)) (ChainID tx) signed = None ->
  increaseGasPrice i tx w =
    (let* err := storageUpsert i (raised tx signed) in
     match err with
     | Some e =>
         ret (zeroTransaction,
              Some (errors.Errorf "failed to update transaction after price increase: " e))
     | None => ret (raised tx signed, None)
     end)
      (mkWorld (S (S (now w))) (stored w) (upserts w)
         ((ChainID tx, signed) :: broadcasts w) (logged w) (watched w) (started w)).
Proof.
  intros (Horg & Hnew & (maxPrice & Hmax & Hle) & signer & Hget & Hsign) Hsend.
  unfold increaseGasPrice. rewrite Horg, Hnew, Hmax.
  destruct (Z.ltb_spec maxPrice newPrice); [lia|].
  unfold signAndSend. rewrite Hget.
  unfold bind at 1. unfold bind at 1. unfold callSigner. rewrite Hsign.
  unfold bind at 1. unfold bcSendTransaction. cbn [advance now]. rewrite Hsend.
  reflexivity.
Qed.

(** An increase whose replacement is signed, accepted by the chain and
    taken by the storage: the replacement is broadcast once on the
    transaction's chain, one record is written, in state [PriceIncreased]
    with the signed replacement as its [LatestTx], that record is the
    stored one, and the loop goes round again holding it, so that the next
    increase multiplies the price of the replacement. *)
Theorem increase_raises_price (i : GasPriceIncremenetor) (tx : Transaction) (w : World)
    (org signed : types.Transaction) (newPrice : Z) :
  signsIncrease i tx w org newPrice signed ->
  SendTransaction (bc i) (S (now w)) (ChainID tx) signed = None ->
  accepted i (S (S (now w))) (raised tx signed) ->
  exists w',
    watchTurn i tx CaseIncrease w = (Value (Continue (raised tx signed)), w')
    /\ broadcasts w' = (ChainID tx, signed) :: broadcasts w
    /\ upserts w' = raised tx signed :: upserts w
    /\ stored w' !! UniqueID tx = Some (raised tx signed)
    /\ getLatestTx (raised tx signed) = Ok signed
    /\ sameWork tx (raised tx signed).
Proof.
  intros Hsigns Hsend Hacc.
  pose proof (increaseGasPrice_signed i tx w org signed newPrice Hsigns Hsend) as Hrun.
  unfold accepted in Hacc.
  eexists. cbn [watchTurn]. unfold bind at 1. rewrite Hrun.
  unfold bind at 1. unfold storageUpsert. cbn [now]. rewrite Hacc.
  unfold ret at 1. cbv beta iota. unfold ret.
  split; [reflexivity|]. cbn [broadcasts upserts stored].
  split; [reflexivity|]. split; [reflexivity|].
  split; [apply lookup_insert_eq|]. split; [reflexivity | repeat split].
Qed.

Lemma increase_raises_price_witness :
  exists w',
    watchTurn (fixture.incrementor (fixture.accepting 0) fixture.pendingChain
                 {[ fixture.alice := fixture.sign ]} 1000)
      (fixture.record 40) CaseIncrease (fixture.holding (fixture.record 40))
    = (Value (Continue (raised (fixture.record 40) (fixture.payment 80))), w')
    /\ latestGasPrice (raised (fixture.record 40) (fixture.payment 80)) = Some 80.
Proof.
  destruct (increase_raises_price
              (fixture.incrementor (fixture.accepting 0) fixture.pendingChain
                 {[ fixture.alice := fixture.sign ]} 1000)
              (fixture.record 40) (fixture.holding (fixture.record 40))
              (fixture.payment 40) (fixture.payment 80) 80)
    as (w' & Hturn & _).
  - split; [reflexivity|]. split; [vm_compute; reflexivity|].
    split; [exists 100; split; [reflexivity | lia]|].
    exists fixture.sign. split; [|reflexivity].
    vm_compute. reflexivity.
  - reflexivity.
  - reflexivity.
  - exists w'. split; [exact Hturn | reflexivity].
Defined.

(** An increase whose replacement the chain accepted but whose record the
    storage refuses: the replacement stays broadcast, the stored records
    are as before (the record of the transaction keeps its former state
    and its former [LatestTx], which is no longer the transaction in
    flight), and the storage's error is returned, wrapped. *)
Theorem broadcast_outlives_refused_write (i : GasPriceIncremenetor) (tx : Transaction)
    (w : World) (org signed : types.Transaction) (newPrice : Z) (e : error) :
  signsIncrease i tx w org newPrice signed ->
  SendTransaction (bc i) (S (now w)) (ChainID tx) signed = None ->
  UpsertIncrementorTransaction (storage i) (S (S (now w))) (raised tx signed) = Some e ->
  exists w',
    increaseGasPrice i tx w
    = (Value (zeroTransaction,
              Some (errors.Errorf "failed to update transaction after price increase: " e)),
       w')
    /\ broadcasts w' = (ChainID tx, signed) :: broadcasts w
    /\ upserts w' = raised tx signed :: upserts w
    /\ stored w' = stored w.
Proof.
  intros Hsigns Hsend Hup.
  rewrite (increaseGasPrice_signed i tx w org signed newPrice Hsigns Hsend).
  eexists. unfold bind at 1. unfold storageUpsert. cbn [now]. rewrite Hup.
  unfold ret. split; [reflexivity|]. cbn [broadcasts upserts stored]. repeat split.
Qed.

Lemma broadcast_outlives_refused_write_witness :
  exists r w',
    increaseGasPrice (fixture.incrementor (refusingAt 2%nat) fixture.pendingChain
                        {[ fixture.alice := fixture.sign ]} 1000)
      (fixture.record 40) (fixture.holding (fixture.record 40))
    = (Value (zeroTransaction, Some r), w')
    /\ broadcasts w' = [(1, fixture.payment 80)]
    /\ stored w' !! "tx-1" = Some (fixture.record 40).
Proof.
  destruct (broadcast_outlives_refused_write
              (fixture.incrementor (refusingAt 2%nat) fixture.pendingChain
                 {[ fixture.alice := fixture.sign ]} 1000)
              (fixture.record 40) (fixture.holding (fixture.record 40))
              (fixture.payment 40) (fixture.payment 80) 80 (errors.New "disk full"))
    as (w' & Hrun & Hb & _ & Hst).
  - split; [reflexivity|]. split; [vm_compute; reflexivity|].
    split; [exists 100; split; [reflexivity | lia]|].
    exists fixture.sign. split; [|reflexivity].
    vm_compute. reflexivity.
  - reflexivity.
  - reflexivity.
  - eexists _, w'. split; [exact Hrun|]. split; [exact Hb|].
    rewrite Hst. apply lookup_singleton_eq.
Defined.

(* ===================================================================== *)
(** ** A mined transaction whose success cannot be stored *)
(* ===================================================================== *)

(** The transaction is mined with a successful receipt, but the storage
    refuses the [Succeed] write.  The loop returns that error, and when the
    transaction has by then expired the goroutine writes it as [Failed]:
    a transaction that succeeded on chain ends up stored as [Failed]. *)
Theorem mined_success_stored_failed (i : GasPriceIncremenetor) (tx : Transaction)
    (w : World) (org : types.Transaction) (rcp : types.Receipt) (e : error) :
  getLatestTx tx = Ok org ->
  TransactionByHash (bc i) (now w) (ChainID tx) (types.TxHash org) = (false, None) ->
  TransactionReceipt (bc i) (S (now w)) (ChainID tx) (types.TxHash org) = Ok rcp ->
  types.Status rcp = types.ReceiptStatusSuccessful ->
  UpsertIncrementorTransaction (storage i) (S (S (now w))) (withState tx TxStateSucceed)
    = Some e ->
  expiredAt (ambient i) (S (S (S (now w)))) tx = true ->
  accepted i (S (S (S (S (now w))))) (withState tx TxStateFailed) ->
  exists w',
    watcher i tx [CaseCheck] w = (Value tt, w')
    /\ upserts w' = withState tx TxStateFailed :: withState tx TxStateSucceed :: upserts w
    /\ persistedState w' (UniqueID tx) = Some TxStateFailed
    /\ (UniqueID tx ∉ watched w').
Proof.
  intros Horg Hby Hrcp Hst Hup Hexp Hacc.
  destruct (transactionSuccess_run i tx (advance (advance w)))
    as (w1 & r & Hrun & Hu & _ & Hnow & _ & Hrej).
  destruct (Hrej e Hup) as [-> _].
  assert (Hloop : watchAndIncrement i tx [CaseCheck] w
                  = (Value (Return (Some (errors.Errorf
                                            "failed marking transaction succeed: " e))), w1)).
  { cbn [watchAndIncrement watchTurn]. unfold bind at 1. unfold bind at 1.
    rewrite (getTxStatus_succeeds i tx w org rcp Horg Hby Hrcp Hst).
    unfold bind at 1. rewrite Hrun. reflexivity. }
  destruct (watcher_after_error i tx [CaseCheck] w w1 _ Hloop) as (w2 & Hw & Hout & Hend).
  cbn [advance now] in Hnow. rewrite Hnow, Hexp in Hend.
  destruct Hend as [Hu2 Hst2].
  exists w2. split; [exact Hw|]. split; [now rewrite Hu2, Hu|].
  split; [apply Hst2, Hacc | exact Hout].
Qed.

Lemma mined_success_stored_failed_witness :
  exists w',
    watcher (fixture.incrementor (refusingAt 2%nat) (fixture.minedChain 1)
               {[ fixture.alice := fixture.sign ]} 3%nat)
      (fixture.record 40) [CaseCheck] (fixture.holding (fixture.record 40))
    = (Value tt, w')
    /\ persistedState w' "tx-1" = Some TxStateFailed.
Proof.
  destruct (mined_success_stored_failed
              (fixture.incrementor (refusingAt 2%nat) (fixture.minedChain 1)
                 {[ fixture.alice := fixture.sign ]} 3%nat)
              (fixture.record 40) (fixture.holding (fixture.record 40))
              (fixture.payment 40) (types.mkReceipt 1) (errors.New "disk full")
              eq_refl eq_refl eq_refl eq_refl eq_refl eq_refl eq_refl)
    as (w' & Hrun & _ & Hst & _).
  exists w'. split; [exact Hrun | exact Hst].
Defined.

(* ===================================================================== *)
(** ** What the watcher hands to the chain *)
(* ===================================================================== *)

Lemma silent_broadcasts {A} (Q : A -> Prop) (c : Go A) :
  effects (fun _ => True) (fun _ => False) Q c ->
  forall w, broadcasts (snd (c w)) = broadcasts w.
Proof.
  intros H w. destruct (H w) as (_ & (sent & Hsent & Hall) & _).
  destruct sent as [|b sent]; [exact Hsent|]. inversion Hall; contradiction.
Qed.

Lemma broadcasts_bind {A C} (c : Go A) (k : A -> Go C) (w : World) :
  (forall a w1, broadcasts (snd (k a w1)) = broadcasts w1) ->
  broadcasts (snd (bind c k w)) = broadcasts (snd (c w)).
Proof.
  intros Hk. unfold bind. destruct (c w) as [[a|] w1]; cbn [snd]; [apply Hk | reflexivity].
Qed.

Lemma transactionFailed_silent (i : GasPriceIncremenetor) (tx : Transaction) (w : World) :
  broadcasts (snd (transactionFailed i tx w)) = broadcasts w.
Proof.
  apply (silent_broadcasts (fun _ => True)). now apply effects_transactionFailed.
Qed.

(** [signAndSend] hands the chain at most one transaction, the one the
    signer it resolved returned. *)
Lemma signAndSend_broadcasts (i : GasPriceIncremenetor) (utx : types.Transaction)
    (chainID : Z) (hex : string) (w : World) :
  broadcasts (snd (signAndSend i utx chainID hex w)) = broadcasts w
  \/ exists signed,
       signedByRegistered i chainID (chainID, signed)
       /\ broadcasts (snd (signAndSend i utx chainID hex w)) = (chainID, signed) :: broadcasts w.
Proof.
  unfold signAndSend.
  destruct (getSignerFunc (signers i) hex) as [[f|] [|]] eqn:Hget; try (now left).
  destruct (getSignerFunc_registered _ _ _ _ Hget) as [a Ha].
  go_unfold. destruct (f (now w) utx chainID) as [signed|e] eqn:Hf; [right | now left].
  exists signed. split.
  - split; [reflexivity|]. now exists a, f, (now w), utx.
  - cbn [now]. destruct (SendTransaction _ _ _ _); reflexivity.
Qed.

Lemma increaseGasPrice_broadcasts (i : GasPriceIncremenetor) (cur : Transaction) (w : World) :
  broadcasts (snd (increaseGasPrice i cur w)) = broadcasts w
  \/ exists signed,
       is_Some (MaxPrice (Opts cur))
       /\ signedByRegistered i (ChainID cur) (ChainID cur, signed)
       /\ broadcasts (snd (increaseGasPrice i cur w)) = (ChainID cur, signed) :: broadcasts w.
Proof.
  unfold increaseGasPrice.
  destruct (getLatestTx cur) as [org|e]; [|now left].
  destruct (newGasPriceOf _ _) as [newGasPrice|]; [|now left].
  destruct (MaxPrice (Opts cur)) as [mp|]; [|now left].
  destruct (mp <? newGasPrice).
  - left. rewrite broadcasts_bind; [apply transactionFailed_silent|].
    intros [e|] w1; reflexivity.
  - rewrite broadcasts_bind.
    + destruct (signAndSend_broadcasts i (rebuiledWithNewGasPrice cur org newGasPrice)
                  (ChainID cur) (SenderAddressHex cur) w) as [H | (signed & Hs & H)];
        [now left | right].
      exists signed. split; [now exists mp|]. split; assumption.
    + intros [newTx|e] w1.
      * unfold transactionPriceIncreased, types.MarshalJSON. go_unfold.
        destruct (UpsertIncrementorTransaction _ _ _); reflexivity.
      * rewrite broadcasts_bind; [apply transactionFailed_silent|]. reflexivity.
Qed.

(** A turn of the loop hands the chain a transaction only on an increase
    tick, and then one. *)
Lemma watchTurn_broadcasts (i : GasPriceIncremenetor) (cur : Transaction) (c : selected)
    (w : World) :
  broadcasts (snd (watchTurn i cur c w)) = broadcasts w
  \/ (c = CaseIncrease
      /\ exists signed,
           is_Some (MaxPrice (Opts cur))
           /\ signedByRegistered i (ChainID cur) (ChainID cur, signed)
           /\ broadcasts (snd (watchTurn i cur c w)) = (ChainID cur, signed) :: broadcasts w).
Proof.
  assert (Hfailed : forall w1,
            broadcasts (snd ((let* r := transactionFailed i cur in ret (Return r)) w1))
            = broadcasts w1).
  { intros w1. rewrite broadcasts_bind; [apply transactionFailed_silent | reflexivity]. }
  assert (Hlogged : forall e w1,
            broadcasts (snd ((let* _ := log i cur e in
                              let* r := transactionFailed i cur in ret (Return r)) w1))
            = broadcasts w1).
  { intros e w1. rewrite broadcasts_bind; [|intros _ w2; apply Hfailed].
    apply (silent_broadcasts (fun _ => True)), effects_log. }
  destruct c; cbn [watchTurn].
  - now left.
  - left. rewrite broadcasts_bind.
    + apply (silent_broadcasts (fun _ => True)), effects_getTxStatus.
    + intros [status [e|]] w1.
      * destruct (negb _); [reflexivity | apply Hlogged].
      * destruct status; try reflexivity.
        rewrite broadcasts_bind; [|reflexivity].
        apply (silent_broadcasts (fun _ => True)). now apply effects_transactionSuccess.
  - rewrite broadcasts_bind.
    + destruct (increaseGasPrice_broadcasts i cur w) as [H | H]; [now left | right].
      split; [reflexivity | exact H].
    + intros [newTx [e|]] w1; [|reflexivity].
      destruct (negb _); [reflexivity | apply Hlogged].
  - left. apply Hfailed.
Qed.

Lemma watchAndIncrement_broadcasts (i : GasPriceIncremenetor) (tx : Transaction)
    (cases : list selected) :
  forall cur w,
    sameWork tx cur \/ cur = zeroTransaction ->
    exists sent,
      broadcasts (snd (watchAndIncrement i cur cases w)) = (sent ++ broadcasts w)%list
      /\ (length sent <= increaseTicks cases)%nat
      /\ Forall (signedByRegistered i (ChainID tx)) sent.
Proof.
  induction cases as [|c rest IH]; intros cur w Hcur; cbn [watchAndIncrement].
  { exists []. split; [reflexivity|]. split; [cbn; lia | constructor]. }
  assert (Hturn : exists sent,
            broadcasts (snd (watchTurn i cur c w)) = (sent ++ broadcasts w)%list
            /\ (length sent <= increaseTicks [c])%nat
            /\ Forall (signedByRegistered i (ChainID tx)) sent).
  { destruct (watchTurn_broadcasts i cur c w) as [H | (-> & signed & Hmax & Hs & H)].
    - exists []. split; [exact H|]. split; [cbn; lia | constructor].
    - exists [(ChainID cur, signed)]. split; [exact H|]. split; [cbn; lia|].
      destruct Hcur as [(_ & Hchain & _) | ->].
      + rewrite Hchain in Hs |- *. repeat constructor; apply Hs.
      + destruct Hmax as [mp Hmp]. discriminate Hmp. }
  destruct Hturn as (sent & Hsent & Hlen & Hall).
  unfold bind. destruct (watchTurn i cur c w) as [[[cur'|err]|] w1] eqn:Hrun; cbn [snd] in *.
  - assert (Hcur' : sameWork tx cur' \/ cur' = zeroTransaction).
    { destruct Hcur as [Hcur | ->].
      - destruct (watchTurn_continue i cur cur' c w w1 Hrun) as [H | [-> _]]; [left | now right].
        now apply (sameWork_trans tx cur cur').
      - destruct (watchTurn_continue i zeroTransaction cur' c w w1 Hrun) as [H | [-> _]];
          [|now right].
        right. destruct c; cbn [watchTurn] in Hrun.
        + discriminate Hrun.
        + unfold bind, getTxStatus in Hrun. cbn in Hrun. discriminate Hrun.
        + unfold bind, increaseGasPrice in Hrun. cbn in Hrun. discriminate Hrun.
        + unfold bind in Hrun. destruct (transactionFailed _ _ _) as [[r|] w2]; discriminate Hrun. }
    destruct (IH cur' w1 Hcur') as (sent' & Hsent' & Hlen' & Hall').
    exists (sent' ++ sent)%list. rewrite Hsent', Hsent, app_assoc.
    split; [reflexivity|]. split; [|apply Forall_app; split; assumption].
    rewrite length_app. destruct c; cbn [increaseTicks] in *; lia.
  - exists sent. split; [exact Hsent|]. split; [|exact Hall].
    destruct c; cbn [increaseTicks] in *; lia.
  - exists sent. split; [exact Hsent|]. split; [|exact Hall].
    destruct c; cbn [increaseTicks] in *; lia.
Qed.

(** Whatever cases its selects take, the watcher hands the chain at most
    one transaction for each increase tick and none on a check, a stop or
    a timeout; and every transaction it hands over is on the chain of the
    watched transaction and is what a signer of the registry returned for
    that chain. *)
Theorem watcher_broadcasts_signed (i : GasPriceIncremenetor) (tx : Transaction)
    (cases : list selected) (w : World) :
  exists sent,
    broadcasts (snd (watchAndIncrement i tx cases w)) = (sent ++ broadcasts w)%list
    /\ (length sent <= increaseTicks cases)%nat
    /\ Forall (signedByRegistered i (ChainID tx)) sent.
Proof.
  apply watchAndIncrement_broadcasts. left. apply sameWork_refl.
Qed.

(* ===================================================================== *)
(** ** The listed signers *)
(* ===================================================================== *)


